(** * mavconn: handler registry, timer queue and lifecycle of MAVLinkConnection

    A shallow embedding of [src/mavconn/mavconn.py].  Methods of
    [MAVLinkConnection] and [Timer] become computations in a small
    state-and-exception monad over a [World] that holds the connection
    object, the wall clock read by [datetime.datetime.now()], and a trace of
    the calls made into [threading], [time] and [heapq].

    Units.  [datetime] and [timedelta] values have microsecond resolution;
    both are integers here ([Z], microseconds).  A timer's period is kept as
    the value of [timedelta(seconds=period)].  The sign of
    [timedelta.total_seconds()] is the sign of that integer, which is all
    that [time.sleep] inspects before sleeping. *)

From Stdlib Require Import ZArith Lia ZifyNat Sorted.
From stdpp Require Import base option list gmap strings.

#[local] Open Scope Z_scope.

(** ** Python outcomes *)

(** The exceptions the module can raise. *)
Inductive Exn : Type :=
  | KeyError
  | IndexError
  | ValueError
  | NameError.

(** Outcome of a call: a value, an exception, a thread suspended for ever on
    a condition variable, or a loop of the model that ran out of fuel (the
    lemmas on [heapq] show that this last outcome never occurs). *)
Inductive Result (A : Type) : Type :=
  | Ok (a : A)
  | Raise (e : Exn)
  | Blocked
  | OutOfFuel.
Arguments Ok {A} a.
Arguments Raise {A} e.
Arguments Blocked {A}.
Arguments OutOfFuel {A}.

#[global] Instance Result_ret : MRet Result := λ A a, Ok a.
#[global] Instance Result_bind : MBind Result := λ A B k r,
  match r with
  | Ok a => k a
  | Raise e => Raise e
  | Blocked => Blocked
  | OutOfFuel => OutOfFuel
  end.

(** ** Python lists used as arrays *)

Section pylist.
Context {A : Type}.

(** [l[i]] for [i >= 0]. *)
Definition getitem (l : list A) (i : nat) : Result A :=
  match l !! i with
  | Some x => Ok x
  | None => Raise IndexError
  end.

(** [l[i] = x] for [i >= 0]. *)
Definition setitem (l : list A) (i : nat) (x : A) : Result (list A) :=
  if decide (i < length l)%nat then Ok (<[i:=x]> l) else Raise IndexError.

(** [l.append(x)]. *)
Definition append (l : list A) (x : A) : list A := l ++ [x].

(** [l.pop()]: the last element and the list without it. *)
Definition list_pop (l : list A) : Result (A * list A) :=
  match last l with
  | Some x => Ok (x, removelast l)
  | None => Raise IndexError
  end.
End pylist.

(** ** heapq

    [heappush] and [heappop] of the standard library module [heapq]
    (CPython, Lib/heapq.py), which the source imports: a list used as an
    array, with the item comparison [lt] (Python's [<], here
    [Timer.__lt__]) as a parameter. *)

Section heapq.
Context {A : Type} (lt : A → A → bool).

(** The [while pos > startpos] loop of [_siftdown]. *)
Fixpoint _siftdown_loop (fuel : nat) (heap : list A) (newitem : A)
    (startpos pos : nat) : Result (list A) :=
  if decide (startpos < pos)%nat then
    match fuel with
    | O => OutOfFuel
    | S fuel' =>
        let parentpos := Nat.shiftr (pos - 1) 1 in
        parent ← getitem heap parentpos;
        if lt newitem parent then
          heap' ← setitem heap pos parent;
          _siftdown_loop fuel' heap' newitem startpos parentpos
        else setitem heap pos newitem
    end
  else setitem heap pos newitem.

Definition _siftdown (heap : list A) (startpos pos : nat) : Result (list A) :=
  newitem ← getitem heap pos;
  _siftdown_loop pos heap newitem startpos pos.

(** The [while childpos < endpos] loop of [_siftup]; returns the heap and
    the final [pos]. *)
Fixpoint _siftup_loop (fuel : nat) (heap : list A) (endpos pos : nat)
    : Result (list A * nat) :=
  let childpos := (2 * pos + 1)%nat in
  if decide (childpos < endpos)%nat then
    match fuel with
    | O => OutOfFuel
    | S fuel' =>
        let rightpos := (childpos + 1)%nat in
        childpos ←
          (if decide (rightpos < endpos)%nat then
             c ← getitem heap childpos;
             r ← getitem heap rightpos;
             mret (if negb (lt c r) then rightpos else childpos)
           else mret childpos);
        child ← getitem heap childpos;
        heap' ← setitem heap pos child;
        _siftup_loop fuel' heap' endpos childpos
    end
  else Ok (heap, pos).

Definition _siftup (heap : list A) (pos : nat) : Result (list A) :=
  let endpos := length heap in
  let startpos := pos in
  newitem ← getitem heap pos;
  '(heap', pos') ← _siftup_loop endpos heap endpos pos;
  heap'' ← setitem heap' pos' newitem;
  _siftdown heap'' startpos pos'.

Definition heappush (heap : list A) (item : A) : Result (list A) :=
  let heap' := append heap item in
  _siftdown heap' 0 (length heap' - 1).

Definition heappop (heap : list A) : Result (A * list A) :=
  '(lastelt, heap') ← list_pop heap;
  match heap' with
  | [] => Ok (lastelt, heap')
  | _ :: _ =>
      returnitem ← getitem heap' 0;
      heap'' ← setitem heap' 0 lastelt;
      heap''' ← _siftup heap'' 0;
      Ok (returnitem, heap''')
  end.
End heapq.

(** ** The world: connection object, clock and trace *)

(** Handlers are opaque callables and [mav] an opaque port; both are known
    to the module only by reference, modelled as an identifier. *)
Definition Handler : Type := nat.
Definition Mavfile : Type := nat.

(** [class Timer]: the fields set by [Timer.__init__]. *)
Record Timer : Type := mkTimer {
  _period : Z;
  _handler : Handler;
  _next_time : Z
}.

(** [class MAVLinkConnection]: the data fields set by [__init__].  The two
    synchronisation objects [_timers_cv] and [_continue_lock] carry no data;
    their use is recorded in the trace. *)
Record MAVLinkConnection : Type := mkConn {
  mav : Mavfile;
  _stacks : gmap string (list Handler);
  _timers : list Timer;
  _continue : bool
}.

Inductive Lock : Type := ContinueLock | TimersCv.

(** Calls that leave the module, in the order they are made: lock traffic,
    [notify], a blocking [wait], [time.sleep], a [heappush] of a timer on
    the queue, a [heappop] with the timer it returned, and a handler handed
    to a worker.  A call that raises leaves no event. *)
Inductive Event : Type :=
  | EvAcquire (l : Lock)
  | EvRelease (l : Lock)
  | EvNotify
  | EvWait
  | EvSleep (d : Z)
  | EvHeappush (t : Timer)
  | EvHeappop (t : Timer)
  | EvSubmit (h : Handler).

(** [clock] is the wall clock in microseconds, the naive local time that
    [datetime.datetime.now()] reads.  [delays] is the environment's choice
    of how far the wall clock moves before each successive reading and
    beyond each requested sleep (none left: it does not move).  A step may
    be negative: the wall clock is set back at the end of summer time or by
    an adjustment, while a sleep runs its full length. *)
Record World : Type := mkWorld {
  self : MAVLinkConnection;
  clock : Z;
  delays : list Z;
  trace : list Event
}.

Definition M (A : Type) : Type := World → Result A * World.

#[global] Instance M_ret : MRet M := λ A a w, (Ok a, w).
#[global] Instance M_bind : MBind M := λ A B k m w,
  match m w with
  | (Ok a, w') => k a w'
  | (Raise e, w') => (Raise e, w')
  | (Blocked, w') => (Blocked, w')
  | (OutOfFuel, w') => (OutOfFuel, w')
  end.

Definition raise {A : Type} (e : Exn) : M A := λ w, (Raise e, w).
Definition block {A : Type} : M A := λ w, (Blocked, w).
Definition lift {A : Type} (r : Result A) : M A := λ w, (r, w).
Definition get_self : M MAVLinkConnection := λ w, (Ok (self w), w).
Definition put_self (c : MAVLinkConnection) : M unit := λ w,
  (Ok (), mkWorld c (clock w) (delays w) (trace w)).
Definition emit (e : Event) : M unit := λ w,
  (Ok (), mkWorld (self w) (clock w) (delays w) (trace w ++ [e])).

(** [try: body except (KeyError, IndexError): handler]. *)
Definition try_except_KeyError_IndexError {A : Type} (body handler : M A) : M A :=
  λ w,
    match body w with
    | (Raise KeyError, w') | (Raise IndexError, w') => handler w'
    | other => other
    end.

(** [with lock: body]: the lock is released on normal exit and when an
    exception leaves the body. *)
Definition with_ {A : Type} (l : Lock) (body : M A) : M A := λ w,
  match (emit (EvAcquire l) ;; body) w with
  | (Ok a, w') => (_ ← emit (EvRelease l); mret a) w'
  | (Raise e, w') => (emit (EvRelease l) ;; raise e) w'
  | other => other
  end.

(** Field assignments on [self]. *)
Definition set_stacks (s : gmap string (list Handler)) : M unit :=
  c ← get_self; put_self (mkConn (mav c) s (_timers c) (_continue c)).
Definition set_timers (t : list Timer) : M unit :=
  c ← get_self; put_self (mkConn (mav c) (_stacks c) t (_continue c)).
Definition set_continue (b : bool) : M unit :=
  c ← get_self; put_self (mkConn (mav c) (_stacks c) (_timers c) b).

(** *** The clock *)

Definition next_delay (w : World) : Z * list Z :=
  match delays w with
  | [] => (0, [])
  | d :: ds => (d, ds)
  end.

(** [datetime.datetime.now()]. *)
Definition datetime_now : M Z := λ w,
  let '(d, ds) := next_delay w in
  let t := clock w + d in
  (Ok t, mkWorld (self w) t ds (trace w)).

(** [time.sleep(secs)]: a negative argument raises [ValueError]; otherwise
    the thread sleeps for the time asked, and the wall clock ends where that
    time and its own next step take it. *)
Definition time_sleep (secs : Z) : M unit := λ w,
  if decide (secs < 0) then (Raise ValueError, w)
  else
    let '(d, ds) := next_delay w in
    (Ok (), mkWorld (self w) (clock w + secs + d) ds (trace w ++ [EvSleep secs])).

(** *** Module globals *)

(** Names bound at module level by the [import] statements and the two
    class definitions. *)
Definition module_globals : list string :=
  ["mavudp"; "defaultdict"; "datetime"; "timedelta"; "heappush"; "heappop";
   "time"; "concurrent"; "threading"; "MAVLinkConnection"; "Timer"]%string.

(** Looking a global name up; an unbound name raises [NameError]. *)
Definition load_global (name : string) : M unit :=
  if decide (name ∈ module_globals) then mret () else raise NameError.

(** ** class Timer *)

Module Timer_.

Definition __init__ (period : Z) (handler : Handler) : M Timer :=
  current_time ← datetime_now;
  let period_seconds := period in
  mret (mkTimer period handler (current_time + period_seconds)).

Definition wait_time (t : Timer) : M unit :=
  current_time ← datetime_now;
  let delta_time := _next_time t - current_time in
  time_sleep delta_time.

(** [handle] ignores [mavconn_instance]; the object it mutates is the
    timer just popped from the queue, which nothing else refers to, so
    the mutated timer is returned. *)
Definition handle (t : Timer) : M Timer :=
  wait_time t ;;
  (* pass handler to worker thread *)
  current_time ← datetime_now;
  let period_seconds := _period t in
  mret (mkTimer (_period t) (_handler t) (current_time + period_seconds)).

(** The rich comparisons.  [__eq__] first tests [self is other]; an object
    has the same [_next_time] as itself, so on values the test is
    subsumed by the comparison of [_next_time]. *)
Definition __eq__ (a b : Timer) : bool := bool_decide (_next_time a = _next_time b).
Definition __lt__ (a b : Timer) : bool := bool_decide (_next_time a < _next_time b).
Definition __le__ (a b : Timer) : bool := bool_decide (_next_time a ≤ _next_time b).
Definition __ge__ (a b : Timer) : bool := bool_decide (_next_time a >= _next_time b).
Definition __gt__ (a b : Timer) : bool := bool_decide (_next_time a > _next_time b).
Definition __ne__ (a b : Timer) : bool := bool_decide (_next_time a ≠ _next_time b).

End Timer_.

(** ** class MAVLinkConnection *)

Definition __init__ (mavfile : Mavfile) : MAVLinkConnection :=
  mkConn mavfile ∅ [] true.

(** A world in which a connection has just been constructed. *)
Definition new_world (mavfile : Mavfile) (now : Z) (ds : list Z) : World :=
  mkWorld (__init__ mavfile) now ds [].

(** [start] evaluates [ThreadPoolExecutor()] first; the statement after it
    builds a [threading.Thread] object and never starts it. *)
Definition start : M unit :=
  load_global "ThreadPoolExecutor" ;;
  load_global "threading" ;;
  mret ().

Definition stop : M unit :=
  with_ ContinueLock (set_continue false).

Definition __enter__ : M MAVLinkConnection := start ;; get_self.

Definition __exit__ : M unit := stop.

(** [self._stacks[message_name]] on a [defaultdict(list)]: a missing key is
    first bound to a fresh empty list. *)
Definition stacks_getitem (message_name : string) : M (list Handler) :=
  c ← get_self;
  match _stacks c !! message_name with
  | Some l => mret l
  | None => set_stacks (<[message_name := []]> (_stacks c)) ;; mret []
  end.

(** In-place update of the list object bound to [message_name]. *)
Definition stacks_update (message_name : string) (l : list Handler) : M unit :=
  c ← get_self; set_stacks (<[message_name := l]> (_stacks c)).

Definition push_handler (message_name : string) (handler : Handler) : M unit :=
  l ← stacks_getitem message_name;
  stacks_update message_name (append l handler).

Definition pop_handler (message_name : string) : M Handler :=
  try_except_KeyError_IndexError
    (l ← stacks_getitem message_name;
     '(handler, l') ← lift (list_pop l);
     stacks_update message_name l' ;;
     mret handler)
    (raise KeyError).

(** Truth value of the argument of [clear_handler]: [None] and the empty
    string are false. *)
Definition truthy (message_name : option string) : bool :=
  match message_name with
  | None => false
  | Some s => negb (bool_decide (s = EmptyString))
  end.

(** [dict.pop(key)] without default, result discarded. *)
Definition stacks_pop (message_name : string) : M unit :=
  c ← get_self;
  match _stacks c !! message_name with
  | Some _ => set_stacks (delete message_name (_stacks c))
  | None => raise KeyError
  end.

Definition clear_handler (message_name : option string) : M unit :=
  if truthy message_name then
    match message_name with
    | Some name => stacks_pop name
    | None => mret ()
    end
  else set_stacks ∅.

(** [heappush(self._timers, t)]: the list object is updated in place. *)
Definition heappush_timers (t : Timer) : M unit :=
  c ← get_self;
  h ← lift (heappush Timer_.__lt__ (_timers c) t);
  set_timers h ;;
  emit (EvHeappush t).

(** [heappop(self._timers)]. *)
Definition heappop_timers : M Timer :=
  c ← get_self;
  '(t, h) ← lift (heappop Timer_.__lt__ (_timers c));
  set_timers h ;;
  emit (EvHeappop t) ;;
  mret t.

Definition notify : M unit := emit EvNotify.

(** [cv.wait_for(predicate)]: returns at once when the predicate holds;
    otherwise the calling thread waits for a [notify] from another thread. *)
Definition wait_for (predicate : M bool) : M unit :=
  b ← predicate;
  if b : bool then mret () else (emit EvWait ;; block).

Definition add_timer (period : Z) (handler : Handler) : M unit :=
  with_ TimersCv
    (t ← Timer_.__init__ period handler;
     heappush_timers t ;;
     notify).

Definition get_cont_val : M bool :=
  with_ ContinueLock (c ← get_self; mret (_continue c)).

Definition timer_status : M bool :=
  c ← get_self; mret (bool_decide (_timers c ≠ [])).

Definition timer_work : M unit :=
  cont ← get_cont_val;
  if cont : bool then (* SET TO WHILE *)
    current_timer ← with_ TimersCv (wait_for timer_status ;; heappop_timers);
    current_timer ← Timer_.handle current_timer;
    with_ TimersCv (heappush_timers current_timer ;; notify)
  else mret ().

(** ** Vocabulary of the statements *)

(** The world [w] with the handler registry replaced by [s]. *)
Definition with_stacks (w : World) (s : gmap string (list Handler)) : World :=
  mkWorld (mkConn (mav (self w)) s (_timers (self w)) (_continue (self w)))
          (clock w) (delays w) (trace w).

(** The world [w] with the stack of [name] bound to [l]. *)
Definition with_stack (w : World) (name : string) (l : list Handler) : World :=
  with_stacks w (<[name := l]> (_stacks (self w))).

(** The handlers registered for [name], oldest first; none when [name] has
    no stack. *)
Definition stack_of (w : World) (name : string) : list Handler :=
  default [] (_stacks (self w) !! name).

(** [push_handler(name, h)] for each [h] of [hs], in order. *)
Fixpoint push_all (name : string) (hs : list Handler) : M unit :=
  match hs with
  | [] => mret ()
  | h :: hs' => push_handler name h ;; push_all name hs'
  end.

(** [n] successive calls of [pop_handler(name)], with their results in the
    order of the calls. *)
Fixpoint pop_n (name : string) (n : nat) : M (list Handler) :=
  match n with
  | O => mret []
  | S n' => h ← pop_handler name; hs ← pop_n name n'; mret (h :: hs)
  end.

(** [n] successive calls of a method. *)
Fixpoint times (n : nat) (m : M unit) : M unit :=
  match n with
  | O => mret ()
  | S n' => m ;; times n' m
  end.

(** The world [w] with [l] added to its trace. *)
Definition add_trace (w : World) (l : list Event) : World :=
  mkWorld (self w) (clock w) (delays w) (trace w ++ l).

(** The world [w] with the timer queue replaced by [h]. *)
Definition with_timers (w : World) (h : list Timer) : World :=
  mkWorld (mkConn (mav (self w)) (_stacks (self w)) h (_continue (self w)))
          (clock w) (delays w) (trace w).

(** The [i]-th of the delays still to come. *)
Definition delay_at (ds : list Z) (i : nat) : Z := nth i ds 0.

(** The timer that [timer_work] pushes back after handling [r]. *)
Definition rearmed (r : Timer) (w : World) : Timer :=
  mkTimer (_period r) (_handler r)
    (_next_time r + delay_at (delays w) 1 + delay_at (delays w) 2 + _period r).

(** The handlers submitted to a worker along a trace, in order. *)
Definition submissions (tr : list Event) : list Handler :=
  omap (λ e, match e with EvSubmit h => Some h | _ => None end) tr.

(** A computation that submits no handler, whatever its outcome. *)
Definition no_submit {A : Type} (m : M A) : Prop :=
  ∀ w, submissions (trace (snd (m w))) = submissions (trace w).

(** *** The order of a heap *)

Section heap_order.
Context {A : Type} (key : A → Z).

(** Index of the parent of the item at index [j > 0]. *)
Definition parent (j : nat) : nat := Nat.shiftr (j - 1) 1.

(** [heapq]'s invariant: no item is smaller than its parent. *)
Definition heap_ordered (h : list A) : Prop :=
  ∀ j a b, (0 < j)%nat → h !! j = Some b → h !! parent j = Some a →
           key a ≤ key b.

(** The same, as a test. *)
Definition heap_orderedb (h : list A) : bool :=
  forallb
    (λ j, match h !! j, h !! parent j with
          | Some b, Some a => bool_decide (key a ≤ key b)
          | _, _ => true
          end)
    (seq 1 (length h - 1)).

(** State of the loop of [_siftdown] with the hole at [pos] and [x] the
    item to place: every pair that does not involve [pos] is in order,
    and the items below [pos] are no smaller than [x] nor than the item
    above [pos]. *)
Definition sd_inv (h : list A) (pos : nat) (x : A) : Prop :=
  (pos < length h)%nat
  ∧ (∀ j a b, (0 < j)%nat → j ≠ pos → parent j ≠ pos →
       h !! j = Some b → h !! parent j = Some a → key a ≤ key b)
  ∧ (∀ c b, (0 < c)%nat → parent c = pos → h !! c = Some b →
       key x ≤ key b
       ∧ ((0 < pos)%nat → ∀ a, h !! parent pos = Some a → key a ≤ key b)).

(** State of the loop of [_siftup] with the hole at [pos]: every pair that
    does not involve [pos] is in order, and the items below [pos] are no
    smaller than the item above it. *)
Definition su_inv (h : list A) (pos : nat) : Prop :=
  (pos < length h)%nat
  ∧ (∀ j a b, (0 < j)%nat → j ≠ pos → parent j ≠ pos →
       h !! j = Some b → h !! parent j = Some a → key a ≤ key b)
  ∧ ((0 < pos)%nat → ∀ c a b, (0 < c)%nat → parent c = pos →
       h !! c = Some b → h !! parent pos = Some a → key a ≤ key b).

End heap_order.

(** The timer queue of [w] satisfies [heapq]'s invariant on [_next_time]. *)
Definition timers_ordered (w : World) : Prop :=
  heap_ordered _next_time (_timers (self w)).

(** *** Worlds used as examples *)

(** A connection with handlers 1 and 2 registered for HEARTBEAT. *)
Definition heartbeat_world : World :=
  with_stack (new_world 0%nat 0 []) "HEARTBEAT" [1; 2]%nat.

(** A clock at 0 that lets 500 microseconds go by between the end of the
    first sleep and the next reading. *)
Definition drifting_world : World := new_world 0%nat 0 [0; 0; 0; 500].

(** A connection holding one timer of period 0.1 s, added at time 0. *)
Definition one_timer_world : World :=
  mkWorld (mkConn 0%nat ∅ [mkTimer 100000 7%nat 100000] true) 0 []
    [EvAcquire TimersCv; EvHeappush (mkTimer 100000 7%nat 100000);
     EvNotify; EvRelease TimersCv].

(** A connection holding timers due at 0.05 s, 0.1 s and 0.07 s. *)
Definition three_timer_world : World :=
  mkWorld
    (mkConn 0%nat ∅
       [mkTimer 50000 8%nat 50000; mkTimer 100000 7%nat 100000;
        mkTimer 70000 9%nat 70000] true)
    0 [] [].

(** *** Vocabulary of the further properties *)

(** [n] successive pops of the timer queue, as the scheduling pass performs
    them, with the timers in the order they come out. *)
Fixpoint pop_all (n : nat) : M (list Timer) :=
  match n with
  | O => mret []
  | S n' => t ← heappop_timers; ts ← pop_all n'; mret (t :: ts)
  end.

(** Timers listed from the earliest due time to the latest. *)
Definition by_due_time (l : list Timer) : Prop :=
  StronglySorted (λ a b, _next_time a ≤ _next_time b) l.

(** A running connection whose queue holds the single timer [t], at clock
    [now], with an ideal clock: no delay is still to come. *)
Definition ideal_world (mavfile : Mavfile) (s : gmap string (list Handler))
    (t : Timer) (now : Z) (tr : list Event) : World :=
  mkWorld (mkConn mavfile s [t] true) now [] tr.

(** A connection at 0.2 s whose queue holds timers due at 0.05 s, 0.1 s and
    0.07 s: the first to come out is overdue. *)
Definition overdue_world : World :=
  mkWorld
    (mkConn 0%nat ∅
       [mkTimer 50000 8%nat 50000; mkTimer 100000 7%nat 100000;
        mkTimer 70000 9%nat 70000] true)
    200000 [] [].

(** The calls that one completed pass of [timer_work] makes: it pops
    [popped], sleeps for [d] and pushes [pushed]. *)
Definition pass_events (popped : Timer) (d : Z) (pushed : Timer) : list Event :=
  [EvAcquire ContinueLock; EvRelease ContinueLock;
   EvAcquire TimersCv; EvHeappop popped; EvRelease TimersCv;
   EvSleep d;
   EvAcquire TimersCv; EvHeappush pushed; EvNotify; EvRelease TimersCv].

(** The calls of a pass of [timer_work] that stops at an overdue [popped]. *)
Definition failed_pass_events (popped : Timer) : list Event :=
  [EvAcquire ContinueLock; EvRelease ContinueLock;
   EvAcquire TimersCv; EvHeappop popped; EvRelease TimersCv].

(** The calls of [n] completed passes on the single timer of period
    [period], first due at [due], when each pass ends exactly at the due
    time. *)
Fixpoint cadence_events (n : nat) (period : Z) (handler : Handler) (due : Z)
    : list Event :=
  match n with
  | O => []
  | S n' =>
      pass_events (mkTimer period handler due) period
        (mkTimer period handler (due + period))
      ++ cadence_events n' period handler (due + period)
  end.

(** A clock at 0 that moves 500 microseconds on between the end of the
    next sleep and the reading that follows it. *)
Definition late_reading_world : World := new_world 0%nat 0 [0; 0; 500].

(** A clock at 1 s that is set back by one hour during the next sleep. *)
Definition set_back_world : World := new_world 0%nat 1000000 [0; -3600000000; 0].

(** A computation that, whatever its outcome, leaves the handler registry,
    the flag and the transport of the connection as it found them. *)
Definition keeps_registry {A : Type} (m : M A) : Prop :=
  ∀ w, _stacks (self (snd (m w))) = _stacks (self w)
       ∧ _continue (self (snd (m w))) = _continue (self w)
       ∧ mav (self (snd (m w))) = mav (self w).

(** ** Outcomes and lists *)

Ltac run_M :=
  unfold mbind, mret, M_bind, M_ret, get_self, put_self, set_stacks,
    set_timers, set_continue, emit, raise, block, lift; simpl.

Lemma bind_Ok {A B : Type} (a : A) (k : A → Result B) : (Ok a ≫= k) = k a.
Proof. reflexivity. Qed.

Lemma mret_Ok {A : Type} (a : A) : (mret a : Result A) = Ok a.
Proof. reflexivity. Qed.

Lemma getitem_Some {A : Type} (l : list A) (i : nat) (x : A) :
  l !! i = Some x → getitem l i = Ok x.
Proof. unfold getitem. by intros ->. Qed.

Lemma setitem_lt {A : Type} (l : list A) (i : nat) (x : A) :
  (i < length l)%nat → setitem l i x = Ok (<[i:=x]> l).
Proof. unfold setitem. intros H. by rewrite decide_True. Qed.

(** ** The handler registry *)

Lemma with_stack_id (w : World) (name : string) (l : list Handler) :
  _stacks (self w) !! name = Some l → with_stack w name l = w.
Proof.
  intros H. destruct w as [[m s t c] k d tr]; simpl in *.
  unfold with_stack, with_stacks; simpl. by rewrite insert_id.
Qed.

Lemma with_stack_twice (w : World) (name : string) (l l' : list Handler) :
  with_stack (with_stack w name l) name l' = with_stack w name l'.
Proof.
  unfold with_stack, with_stacks; simpl. by rewrite insert_insert_eq.
Qed.

Lemma stacks_getitem_run (w : World) (name : string) :
  stacks_getitem name w = (Ok (stack_of w name), with_stack w name (stack_of w name)).
Proof.
  unfold stacks_getitem, stack_of. run_M.
  destruct (_stacks (self w) !! name) as [l|] eqn:E; simpl.
  - by rewrite with_stack_id.
  - reflexivity.
Qed.

Lemma push_handler_run (w : World) (name : string) (h : Handler) :
  push_handler name h w = (Ok (), with_stack w name (stack_of w name ++ [h])).
Proof.
  unfold push_handler, stacks_update. run_M.
  rewrite stacks_getitem_run. unfold append, with_stack, with_stacks; simpl.
  by rewrite insert_insert_eq.
Qed.

Lemma pop_handler_some (w : World) (name : string) (l : list Handler) (h : Handler) :
  _stacks (self w) !! name = Some (l ++ [h]) →
  pop_handler name w = (Ok h, with_stack w name l).
Proof.
  intros H. unfold pop_handler, try_except_KeyError_IndexError, stacks_update.
  run_M. rewrite stacks_getitem_run. unfold stack_of. rewrite H. simpl.
  unfold list_pop. rewrite last_snoc, removelast_last. simpl.
  unfold with_stack, with_stacks; simpl. by rewrite insert_insert_eq.
Qed.

Lemma pop_handler_none (w : World) (name : string) :
  stack_of w name = [] →
  pop_handler name w = (Raise KeyError, with_stack w name []).
Proof.
  intros H. unfold pop_handler, try_except_KeyError_IndexError. run_M.
  rewrite stacks_getitem_run, H. reflexivity.
Qed.

Lemma push_all_run (w : World) (name : string) (hs : list Handler) :
  hs ≠ [] →
  push_all name hs w = (Ok (), with_stack w name (stack_of w name ++ hs)).
Proof.
  revert w. induction hs as [|h hs IH]; intros w Hne; [done|].
  simpl. run_M. rewrite push_handler_run.
  destruct hs as [|h' hs'].
  - reflexivity.
  - rewrite IH by done. rewrite with_stack_twice. f_equal. f_equal.
    unfold stack_of, with_stack; simpl. rewrite lookup_insert_eq. simpl.
    by rewrite <- app_assoc.
Qed.

Lemma pop_n_run (name : string) (hs : list Handler) :
  ∀ (w : World) (l : list Handler),
    _stacks (self w) !! name = Some (l ++ hs) →
    pop_n name (length hs) w = (Ok (rev hs), with_stack w name l).
Proof.
  induction hs as [|h hs IH] using rev_ind; intros w l H.
  - rewrite app_nil_r in H. simpl. by rewrite with_stack_id.
  - rewrite length_app, Nat.add_comm. simpl. run_M.
    rewrite app_assoc in H. rewrite (pop_handler_some _ _ _ _ H).
    rewrite (IH _ l).
    + by rewrite with_stack_twice, rev_unit.
    + unfold with_stack; simpl. by rewrite lookup_insert_eq.
Qed.

(** C2.  Handlers pushed on one message type come back from [pop_handler]
    last-in first-out, whatever the stack held before; a successful pop
    removes the handler it returns; and popping a type that has no stack or
    an empty one raises [KeyError] in both cases. *)
Theorem C2_pop_handler_lifo :
  (∀ (w : World) (name : string) (hs : list Handler),
     (push_all name hs ;; pop_n name (length hs)) w
     = (Ok (rev hs),
        match hs with [] => w | _ => with_stack w name (stack_of w name) end))
  ∧ (∀ (w : World) (name : string) (l : list Handler) (h : Handler),
       _stacks (self w) !! name = Some (l ++ [h]) →
       pop_handler name w = (Ok h, with_stack w name l)
       ∧ stack_of (with_stack w name l) name = l)
  ∧ (∀ (w : World) (name : string),
       _stacks (self w) !! name = None ∨ _stacks (self w) !! name = Some [] →
       pop_handler name w = (Raise KeyError, with_stack w name [])).
Proof.
  split; [|split].
  - intros w name hs. destruct (decide (hs = [])) as [->|Hne]; [reflexivity|].
    unfold mbind, M_bind. rewrite push_all_run by done.
    rewrite (pop_n_run name hs _ (stack_of w name)).
    + rewrite with_stack_twice. by destruct hs.
    + unfold with_stack; simpl. by rewrite lookup_insert_eq.
  - intros w name l h H. split; [by apply pop_handler_some|].
    unfold stack_of, with_stack; simpl. by rewrite lookup_insert_eq.
  - intros w name [H|H]; apply pop_handler_none; unfold stack_of; by rewrite H.
Qed.

(** C9.  A failing [pop_handler] on a message type that was never
    registered leaves an empty stack behind for that type: the registry
    after the call differs from the registry before it. *)
Theorem C9_pop_handler_failure_mutates (w : World) (name : string) :
  _stacks (self w) !! name = None →
  ∃ w', pop_handler name w = (Raise KeyError, w')
        ∧ _stacks (self w') = <[name := []]> (_stacks (self w))
        ∧ _stacks (self w') !! name = Some []
        ∧ _stacks (self w') ≠ _stacks (self w).
Proof.
  intros H. exists (with_stack w name []). split; [|split; [|split]].
  - apply pop_handler_none. unfold stack_of. by rewrite H.
  - reflexivity.
  - simpl. by rewrite lookup_insert_eq.
  - simpl. intros E. rewrite <- E, lookup_insert_eq in H. discriminate.
Qed.

Lemma C2_pop_handler_lifo_witness :
  (push_all "HEARTBEAT" [3; 4]%nat ;; pop_n "HEARTBEAT" 2) heartbeat_world
    = (Ok [4; 3]%nat,
       with_stack heartbeat_world "HEARTBEAT" (stack_of heartbeat_world "HEARTBEAT"))
  ∧ (pop_handler "HEARTBEAT" heartbeat_world
       = (Ok 2%nat, with_stack heartbeat_world "HEARTBEAT" [1%nat])
     ∧ stack_of (with_stack heartbeat_world "HEARTBEAT" [1%nat]) "HEARTBEAT" = [1%nat])
  ∧ pop_handler "GPS_RAW_INT" heartbeat_world
      = (Raise KeyError, with_stack heartbeat_world "GPS_RAW_INT" []).
Proof.
  destruct C2_pop_handler_lifo as (Hlifo & Hpop & Hfail).
  split; [|split].
  - exact (Hlifo heartbeat_world "HEARTBEAT"%string [3; 4]%nat).
  - apply (Hpop heartbeat_world "HEARTBEAT"%string [1%nat] 2%nat).
    vm_compute. reflexivity.
  - apply (Hfail heartbeat_world "GPS_RAW_INT"%string).
    left. vm_compute. reflexivity.
Defined.

Lemma C9_pop_handler_failure_mutates_witness :
  ∃ w', pop_handler "GPS_RAW_INT" heartbeat_world = (Raise KeyError, w')
        ∧ _stacks (self w') = <["GPS_RAW_INT"%string := []]> (_stacks (self heartbeat_world))
        ∧ _stacks (self w') !! "GPS_RAW_INT"%string = Some []
        ∧ _stacks (self w') ≠ _stacks (self heartbeat_world).
Proof.
  apply (C9_pop_handler_failure_mutates heartbeat_world "GPS_RAW_INT"%string).
  vm_compute. reflexivity.
Defined.

(** *** clear_handler *)

Lemma clear_handler_named (w : World) (name : string) (l : list Handler) :
  name ≠ EmptyString →
  _stacks (self w) !! name = Some l →
  clear_handler (Some name) w
    = (Ok (), with_stacks w (delete name (_stacks (self w)))).
Proof.
  intros Hne H. unfold clear_handler, truthy, stacks_pop.
  rewrite bool_decide_eq_false_2 by done. run_M. by rewrite H.
Qed.

Lemma clear_handler_absent (w : World) (name : string) :
  name ≠ EmptyString →
  _stacks (self w) !! name = None →
  clear_handler (Some name) w = (Raise KeyError, w).
Proof.
  intros Hne H. unfold clear_handler, truthy, stacks_pop.
  rewrite bool_decide_eq_false_2 by done. run_M. by rewrite H.
Qed.

Lemma clear_handler_all (w : World) :
  clear_handler None w = (Ok (), with_stacks w ∅).
Proof. reflexivity. Qed.

Lemma clear_handler_empty_name (w : World) :
  clear_handler (Some EmptyString) w = (Ok (), with_stacks w ∅).
Proof. reflexivity. Qed.

(** What [clear_handler] does on every input: a non-empty type that has a
    stack loses it and every other type keeps its stack; a non-empty type
    without a stack raises [KeyError] and changes nothing; [None] and the
    empty string empty the registry. *)
Lemma clear_handler_spec (w : World) (name : string) :
  (name ≠ EmptyString → is_Some (_stacks (self w) !! name) →
     ∃ w', clear_handler (Some name) w = (Ok (), w')
           ∧ _stacks (self w') !! name = None
           ∧ ∀ other, other ≠ name →
               _stacks (self w') !! other = _stacks (self w) !! other)
  ∧ (name ≠ EmptyString → _stacks (self w) !! name = None →
     clear_handler (Some name) w = (Raise KeyError, w))
  ∧ (∃ w', clear_handler None w = (Ok (), w') ∧ _stacks (self w') = ∅)
  ∧ (∃ w', clear_handler (Some EmptyString) w = (Ok (), w') ∧ _stacks (self w') = ∅).
Proof.
  split; [|split; [|split]].
  - intros Hne [l Hl]. eexists. split; [by eapply clear_handler_named|].
    simpl. split; [by rewrite lookup_delete_eq|].
    intros other Ho. by rewrite lookup_delete_ne.
  - apply clear_handler_absent.
  - eexists. split; [apply clear_handler_all|done].
  - eexists. split; [apply clear_handler_empty_name|done].
Qed.

(** C8 (failing input).  With stacks registered for the empty type name and
    for HEARTBEAT, [clear_handler('')] is a per-type clear that removes the
    stack of HEARTBEAT as well: the empty string is false in the test
    [if message_name:], so the call takes the clear-everything branch. *)
Theorem C8_clear_handler_empty_name_clears_others :
  ∃ w w',
    (push_handler EmptyString 1%nat ;; push_handler "HEARTBEAT" 2%nat) (new_world 0%nat 0 [])
      = (Ok (), w)
    ∧ _stacks (self w) !! "HEARTBEAT"%string = Some [2%nat]
    ∧ clear_handler (Some EmptyString) w = (Ok (), w')
    ∧ _stacks (self w') !! "HEARTBEAT"%string = None.
Proof.
  eexists _, _. split; [|split; [|split]].
  - vm_compute. reflexivity.
  - vm_compute. reflexivity.
  - reflexivity.
  - vm_compute. reflexivity.
Qed.

(** ** Lifecycle *)

Lemma stop_run (w : World) :
  stop w
  = (Ok (),
     mkWorld (mkConn (mav (self w)) (_stacks (self w)) (_timers (self w)) false)
       (clock w) (delays w)
       (trace w ++ [EvAcquire ContinueLock; EvRelease ContinueLock])).
Proof.
  unfold stop, with_. run_M. by rewrite <- app_assoc.
Qed.

Lemma times_stop_run (n : nat) :
  ∀ w : World, ∃ wn,
    times (S n) stop w = (Ok (), wn)
    ∧ self wn = mkConn (mav (self w)) (_stacks (self w)) (_timers (self w)) false.
Proof.
  induction n as [|n IH]; intros w.
  - eexists. split; reflexivity.
  - change (times (S (S n)) stop) with (stop ;; times (S n) stop).
    unfold mbind at 1, M_bind at 1. rewrite stop_run.
    destruct (IH (mkWorld (mkConn (mav (self w)) (_stacks (self w)) (_timers (self w)) false)
       (clock w) (delays w)
       (trace w ++ [EvAcquire ContinueLock; EvRelease ContinueLock])))
      as (wn & Hrun & Hself).
    exists wn. split; [exact Hrun|]. by rewrite Hself.
Qed.

(** C10.  [stop] sets [_continue] to false between acquiring and releasing
    [_continue_lock] and changes nothing else: registry, timer queue,
    transport and clock are as before; and after any number [n >= 1] of
    calls the connection is in the state one call leaves it in. *)
Theorem C10_stop_frame_idempotent (w : World) (n : nat) :
  (1 ≤ n)%nat →
  ∃ w1 wn,
    stop w = (Ok (), w1)
    ∧ _continue (self w1) = false
    ∧ _stacks (self w1) = _stacks (self w)
    ∧ _timers (self w1) = _timers (self w)
    ∧ mav (self w1) = mav (self w)
    ∧ clock w1 = clock w
    ∧ trace w1 = trace w ++ [EvAcquire ContinueLock; EvRelease ContinueLock]
    ∧ times n stop w = (Ok (), wn)
    ∧ self wn = self w1.
Proof.
  intros Hn. destruct n as [|n]; [lia|].
  destruct (times_stop_run n w) as (wn & Hrun & Hself).
  eexists _, wn. rewrite stop_run. by repeat split.
Qed.

Lemma C10_stop_frame_idempotent_witness :
  ∃ w1 wn,
    stop heartbeat_world = (Ok (), w1)
    ∧ _continue (self w1) = false
    ∧ _stacks (self w1) = _stacks (self heartbeat_world)
    ∧ _timers (self w1) = _timers (self heartbeat_world)
    ∧ mav (self w1) = mav (self heartbeat_world)
    ∧ clock w1 = clock heartbeat_world
    ∧ trace w1 = trace heartbeat_world ++ [EvAcquire ContinueLock; EvRelease ContinueLock]
    ∧ times 3 stop heartbeat_world = (Ok (), wn)
    ∧ self wn = self w1.
Proof. apply (C10_stop_frame_idempotent heartbeat_world 3). lia. Defined.

(** C6 (failing input).  [start] raises [NameError] on every connection,
    the name [ThreadPoolExecutor] not being bound in the module, and leaves
    the world as it found it: no thread is launched, and after [stop] the
    flag [_continue] stays false. *)
Theorem C6_start_raises_NameError (w : World) :
  start w = (Raise NameError, w)
  ∧ ∃ w', (stop ;; start) w = (Raise NameError, w')
          ∧ _continue (self w') = false.
Proof.
  split; [reflexivity|].
  eexists. unfold mbind at 1, M_bind at 1. rewrite stop_run. split; reflexivity.
Qed.

(** ** The heap invariant of heapq *)

Section heap_invariant.
Context {A : Type} (key : A → Z) (lt : A → A → bool).
Hypothesis lt_key : ∀ a b, lt a b = bool_decide (key a < key b).

#[local] Ltac Zify.zify_post_hook ::= Z.to_euclidean_division_equations.

Lemma parent_div (j : nat) : parent j = ((j - 1) / 2)%nat.
Proof. unfold parent. by rewrite Nat.shiftr_div_pow2. Qed.

Lemma parent_lt (j : nat) : (0 < j)%nat → (parent j < j)%nat.
Proof. rewrite parent_div. lia. Qed.

Lemma parent_child (j p : nat) :
  (0 < j)%nat → parent j = p ↔ (j = 2 * p + 1 ∨ j = 2 * p + 2)%nat.
Proof. rewrite parent_div. lia. Qed.

Lemma heap_orderedb_spec (h : list A) :
  heap_orderedb key h = true ↔ heap_ordered key h.
Proof.
  unfold heap_orderedb, heap_ordered. rewrite forallb_forall. split.
  - intros H j a b Hj Hb Ha.
    assert (Hlen : (j < length h)%nat) by (by eapply lookup_lt_Some).
    specialize (H j). rewrite Hb, Ha in H.
    eapply bool_decide_eq_true_1, H, in_seq. lia.
  - intros H j Hin. apply in_seq in Hin.
    destruct (h !! j) as [b|] eqn:Hb; [|done].
    destruct (h !! parent j) as [a|] eqn:Ha; [|done].
    apply bool_decide_eq_true_2. eapply H; [|done..]. lia.
Qed.

Lemma heap_ordered_nil : heap_ordered key [].
Proof. intros j a b _ Hb. done. Qed.

(** The first item of an ordered heap is a smallest one. *)
Lemma heap_ordered_root (h : list A) (r : A) :
  heap_ordered key h → h !! 0%nat = Some r →
  ∀ j b, h !! j = Some b → key r ≤ key b.
Proof.
  intros Hh Hr j. induction j as [j IH] using lt_wf_ind. intros b Hb.
  destruct (decide (j = 0%nat)) as [->|Hj].
  - rewrite Hr in Hb. injection Hb as ->. lia.
  - assert (Hp : (parent j < j)%nat) by (apply parent_lt; lia).
    destruct (lookup_lt_is_Some_2 h (parent j)) as [a Ha].
    { apply lookup_lt_Some in Hb. lia. }
    etrans; [by apply (IH (parent j) Hp a)|].
    eapply Hh; [|done..]. lia.
Qed.

(** Moving a hole between two positions permutes nothing else. *)
Lemma insert_hole_Permutation (h : list A) (i j : nat) (p x : A) :
  i ≠ j → (i < length h)%nat → h !! j = Some p →
  <[j:=x]> (<[i:=p]> h) ≡ₚ <[i:=x]> h.
Proof.
  intros Hij Hi Hj.
  rewrite <- (list_insert_insert_eq h i p x).
  apply Permutation_insert_swap.
  - by apply list_lookup_insert_eq.
  - by rewrite list_lookup_insert_ne.
Qed.

(** *** _siftdown *)

Lemma sd_inv_insert (h : list A) (pos : nat) (x y : A) :
  sd_inv key h pos x → sd_inv key (<[pos:=y]> h) pos x.
Proof.
  intros (Hlen & Hpairs & Hbelow). split; [|split].
  - by rewrite length_insert.
  - intros j a b Hj Hne Hpne Hb Ha.
    rewrite list_lookup_insert_ne in Hb by done.
    rewrite list_lookup_insert_ne in Ha by done. by eapply Hpairs.
  - intros c b Hc Hpc Hb.
    assert (c ≠ pos) by (pose proof (parent_lt c Hc); lia).
    rewrite list_lookup_insert_ne in Hb by done.
    destruct (Hbelow c b Hc Hpc Hb) as [Hx Hup]. split; [done|].
    intros Hpos a Ha.
    assert (parent pos ≠ pos) by (pose proof (parent_lt pos Hpos); lia).
    rewrite list_lookup_insert_ne in Ha by done. by apply Hup.
Qed.

Lemma siftdown_loop_unfold (fuel : nat) (h : list A) (x : A) (startpos pos : nat) :
  _siftdown_loop lt fuel h x startpos pos
  = if decide (startpos < pos)%nat then
      match fuel with
      | O => OutOfFuel
      | S fuel' =>
          p ← getitem h (parent pos);
          if lt x p then
            h' ← setitem h pos p;
            _siftdown_loop lt fuel' h' x startpos (parent pos)
          else setitem h pos x
      end
    else setitem h pos x.
Proof. by destruct fuel. Qed.

Lemma siftdown_loop_ok (fuel : nat) :
  ∀ (h : list A) (pos : nat) (x : A),
    (pos ≤ fuel)%nat → sd_inv key h pos x →
    ∃ h', _siftdown_loop lt fuel h x 0 pos = Ok h'
          ∧ heap_ordered key h' ∧ h' ≡ₚ <[pos:=x]> h.
Proof.
  induction fuel as [|fuel IH]; intros h pos x Hfuel (Hlen & Hpairs & Hbelow).
  - assert (pos = 0%nat) as -> by lia. rewrite siftdown_loop_unfold.
    rewrite decide_False by lia.
    unfold setitem. rewrite decide_True by done.
    eexists. split; [done|]. split; [|done].
    intros j a b Hj Hb Ha. rewrite list_lookup_insert_ne in Hb by lia.
    destruct (decide (parent j = 0%nat)) as [Hp|Hp].
    + rewrite Hp, list_lookup_insert_eq in Ha by done. injection Ha as <-.
      by destruct (Hbelow j b Hj Hp Hb).
    + rewrite list_lookup_insert_ne in Ha by done.
      eapply Hpairs; [| |done..]; lia.
  - rewrite siftdown_loop_unfold.
    destruct (decide (0 < pos)%nat) as [Hpos|Hpos].
    + pose proof (parent_lt pos Hpos) as Hplt.
      destruct (lookup_lt_is_Some_2 h (parent pos)) as [p Hp]; [lia|].
      unfold getitem at 1. rewrite Hp. unfold mbind at 1, Result_bind at 1.
      rewrite lt_key. destruct (decide (key x < key p)) as [Hlt|Hge].
      * rewrite bool_decide_eq_true_2 by done.
        unfold setitem at 1. rewrite decide_True by done.
        unfold mbind, Result_bind.
        destruct (IH (<[pos:=p]> h) (parent pos) x) as (h' & Hrun & Hord & Hperm).
        { lia. }
        { split; [|split].
          - rewrite length_insert. lia.
          - intros j a b Hj Hne Hpne Hb Ha.
            assert (j ≠ pos) by (intros ->; done).
            rewrite list_lookup_insert_ne in Hb by done.
            destruct (decide (parent j = pos)) as [Hjp|Hjp].
            + rewrite Hjp, list_lookup_insert_eq in Ha by done.
              injection Ha as <-.
              destruct (Hbelow j b Hj Hjp Hb) as [_ Hup]. by apply Hup.
            + rewrite list_lookup_insert_ne in Ha by done. by eapply Hpairs.
          - intros c b Hc Hpc Hb.
            assert (Hpp : (0 < parent pos)%nat →
                          ∀ a, h !! parent (parent pos) = Some a → key a ≤ key p).
            { intros H0 a Ha. pose proof (parent_lt _ H0).
              eapply (Hpairs (parent pos)); [done|lia|lia|done..]. }
            assert (Hins : ∀ a, (0 < parent pos)%nat →
                      <[pos:=p]> h !! parent (parent pos) = Some a →
                      h !! parent (parent pos) = Some a).
            { intros a H0 Ha. pose proof (parent_lt _ H0).
              by rewrite list_lookup_insert_ne in Ha by lia. }
            destruct (decide (c = pos)) as [->|Hcp].
            + rewrite list_lookup_insert_eq in Hb by done. injection Hb as <-.
              split; [lia|]. intros H0 a Ha. apply Hpp; auto.
            + rewrite list_lookup_insert_ne in Hb by done.
              assert (key p ≤ key b).
              { eapply (Hpairs c); [done|done|lia|done|by rewrite Hpc]. }
              split; [lia|]. intros H0 a Ha.
              etrans; [apply Hpp; auto|done]. }
        exists h'. split; [done|]. split; [done|].
        rewrite Hperm. apply insert_hole_Permutation; [lia|done..].
      * rewrite bool_decide_eq_false_2 by done.
        unfold setitem. rewrite decide_True by done.
        eexists. split; [done|]. split; [|done].
        intros j a b Hj Hb Ha.
        destruct (decide (j = pos)) as [->|Hjp].
        -- rewrite list_lookup_insert_eq in Hb by done. injection Hb as <-.
           rewrite list_lookup_insert_ne in Ha by lia.
           rewrite Hp in Ha. injection Ha as <-. lia.
        -- rewrite list_lookup_insert_ne in Hb by done.
           destruct (decide (parent j = pos)) as [Hpj|Hpj].
           ++ rewrite Hpj, list_lookup_insert_eq in Ha by done.
              injection Ha as <-. by destruct (Hbelow j b Hj Hpj Hb).
           ++ rewrite list_lookup_insert_ne in Ha by done. by eapply Hpairs.
    + assert (pos = 0%nat) as -> by lia.
      unfold setitem. rewrite decide_True by done.
      eexists. split; [done|]. split; [|done].
      intros j a b Hj Hb Ha. rewrite list_lookup_insert_ne in Hb by lia.
      destruct (decide (parent j = 0%nat)) as [Hp|Hp].
      * rewrite Hp, list_lookup_insert_eq in Ha by done. injection Ha as <-.
        by destruct (Hbelow j b Hj Hp Hb).
      * rewrite list_lookup_insert_ne in Ha by done.
        eapply Hpairs; [| |done..]; lia.
Qed.

Lemma siftdown_ok (h : list A) (pos : nat) (x : A) :
  h !! pos = Some x → sd_inv key h pos x →
  ∃ h', _siftdown lt h 0 pos = Ok h' ∧ heap_ordered key h' ∧ h' ≡ₚ h.
Proof.
  intros Hx Hinv. unfold _siftdown, getitem. rewrite Hx. simpl.
  destruct (siftdown_loop_ok pos h pos x) as (h' & Hrun & Hord & Hperm);
    [done..|].
  exists h'. split; [done|]. split; [done|].
  by rewrite Hperm, list_insert_id.
Qed.

(** *** _siftup *)

Lemma siftup_loop_unfold (fuel : nat) (h : list A) (endpos pos : nat) :
  _siftup_loop lt fuel h endpos pos
  = if decide (2 * pos + 1 < endpos)%nat then
      match fuel with
      | O => OutOfFuel
      | S fuel' =>
          childpos ←
            (if decide (2 * pos + 1 + 1 < endpos)%nat then
               c ← getitem h (2 * pos + 1)%nat;
               r ← getitem h (2 * pos + 1 + 1)%nat;
               mret (if negb (lt c r) then (2 * pos + 1 + 1)%nat
                     else (2 * pos + 1)%nat)
             else mret (2 * pos + 1)%nat);
          child ← getitem h childpos;
          h' ← setitem h pos child;
          _siftup_loop lt fuel' h' endpos childpos
      end
    else Ok (h, pos).
Proof. by destruct fuel. Qed.

(** Moving the smaller child [c] of [pos] up keeps the loop state. *)
Lemma su_inv_step (h : list A) (pos c : nat) (v : A) :
  su_inv key h pos → (0 < c)%nat → parent c = pos → h !! c = Some v →
  (∀ s b, (0 < s)%nat → parent s = pos → h !! s = Some b → key v ≤ key b) →
  su_inv key (<[pos:=v]> h) c.
Proof.
  intros (Hlen & Hpairs & Habove) Hc Hpc Hv Hmin.
  pose proof (parent_lt c Hc) as Hclt.
  split; [|split].
  - rewrite length_insert. by eapply lookup_lt_Some.
  - intros j a b Hj Hjc Hpjc Hb Ha.
    destruct (decide (j = pos)) as [->|Hjp].
    + rewrite list_lookup_insert_eq in Hb by done. injection Hb as <-.
      pose proof (parent_lt pos Hj).
      rewrite list_lookup_insert_ne in Ha by lia.
      by eapply (Habove Hj c).
    + rewrite list_lookup_insert_ne in Hb by done.
      destruct (decide (parent j = pos)) as [Hpj|Hpj].
      * rewrite Hpj, list_lookup_insert_eq in Ha by done. injection Ha as <-.
        by eapply Hmin.
      * rewrite list_lookup_insert_ne in Ha by done. by eapply Hpairs.
  - intros _ g a b Hg Hpg Hb Ha.
    pose proof (parent_lt g Hg).
    rewrite list_lookup_insert_ne in Hb by lia.
    rewrite Hpc, list_lookup_insert_eq in Ha by done. injection Ha as <-.
    eapply (Hpairs g); [done|lia|lia|done|by rewrite Hpg].
Qed.

Lemma siftup_loop_ok (fuel : nat) :
  ∀ (h : list A) (endpos pos : nat),
    endpos = length h → (length h - pos ≤ fuel)%nat → su_inv key h pos →
    ∃ h' pos', _siftup_loop lt fuel h endpos pos = Ok (h', pos')
               ∧ su_inv key h' pos'
               ∧ (length h' ≤ 2 * pos' + 1)%nat
               ∧ ∀ x, <[pos':=x]> h' ≡ₚ <[pos:=x]> h.
Proof.
  induction fuel as [|fuel IH]; intros h endpos pos -> Hfuel Hinv;
    rewrite siftup_loop_unfold;
    (destruct (decide (2 * pos + 1 < length h)%nat) as [Hchild|Hleaf];
      [|exists h, pos; repeat split; try apply Hinv; [lia|done]]).
  - destruct Hinv as (Hlen & _). lia.
  - assert (Hstep : ∀ c v,
              (0 < c)%nat → parent c = pos → h !! c = Some v →
              (∀ s b, (0 < s)%nat → parent s = pos → h !! s = Some b →
                      key v ≤ key b) →
              ∃ h' pos',
                (child ← getitem h c;
                 h1 ← setitem h pos child;
                 _siftup_loop lt fuel h1 (length h) c) = Ok (h', pos')
                ∧ su_inv key h' pos'
                ∧ (length h' ≤ 2 * pos' + 1)%nat
                ∧ ∀ x, <[pos':=x]> h' ≡ₚ <[pos:=x]> h).
    { intros c v Hc Hpc Hv Hmin.
      pose proof (parent_lt c Hc) as Hclt.
      pose proof (lookup_lt_Some _ _ _ Hv) as Hcl.
      rewrite (getitem_Some _ _ _ Hv), bind_Ok.
      rewrite setitem_lt, bind_Ok by lia.
      destruct (IH (<[pos:=v]> h) (length h) c) as (h' & pos' & Hrun & Hi & Hl & Hperm).
      - by rewrite length_insert.
      - rewrite length_insert. lia.
      - by apply su_inv_step.
      - exists h', pos'. split; [done|]. split; [done|]. split; [done|].
        intros x. rewrite Hperm. apply insert_hole_Permutation; [lia|lia|done]. }
    destruct (lookup_lt_is_Some_2 h (2 * pos + 1)) as [vc Hvc]; [done|].
    destruct (decide (2 * pos + 1 + 1 < length h)%nat) as [Hright|Hright].
    + destruct (lookup_lt_is_Some_2 h (2 * pos + 1 + 1)) as [vr Hvr]; [done|].
      rewrite (getitem_Some _ _ _ Hvc), bind_Ok.
      rewrite (getitem_Some _ _ _ Hvr), bind_Ok, mret_Ok, bind_Ok.
      rewrite lt_key.
      destruct (decide (key vc < key vr)) as [Hlt|Hge].
      * rewrite bool_decide_eq_true_2 by done. cbn [negb].
        apply (Hstep _ vc); [lia|apply parent_child; lia|done|].
        intros s b Hs Hps Hb. apply parent_child in Hps; [|done].
        destruct Hps as [->| ->].
        -- rewrite Hvc in Hb. injection Hb as <-. lia.
        -- replace (2 * pos + 2)%nat with (2 * pos + 1 + 1)%nat in Hb by lia.
           rewrite Hvr in Hb. injection Hb as <-. lia.
      * rewrite bool_decide_eq_false_2 by done. cbn [negb].
        apply (Hstep _ vr); [lia|apply parent_child; lia|done|].
        intros s b Hs Hps Hb. apply parent_child in Hps; [|done].
        destruct Hps as [->| ->].
        -- rewrite Hvc in Hb. injection Hb as <-. lia.
        -- replace (2 * pos + 2)%nat with (2 * pos + 1 + 1)%nat in Hb by lia.
           rewrite Hvr in Hb. injection Hb as <-. lia.
    + rewrite mret_Ok, bind_Ok.
      apply (Hstep _ vc); [lia|apply parent_child; lia|done|].
      intros s b Hs Hps Hb. apply parent_child in Hps; [|done].
      destruct Hps as [->| ->].
      * rewrite Hvc in Hb. injection Hb as <-. lia.
      * apply lookup_lt_Some in Hb. lia.
Qed.

Lemma siftup_ok (h : list A) (x : A) :
  h !! 0%nat = Some x → su_inv key h 0 →
  ∃ h', _siftup lt h 0 = Ok h' ∧ heap_ordered key h' ∧ h' ≡ₚ h.
Proof.
  intros Hx Hinv. unfold _siftup.
  rewrite (getitem_Some _ _ _ Hx), bind_Ok.
  destruct (siftup_loop_ok (length h) h (length h) 0)
    as (h1 & pos1 & Hrun & (Hlen1 & Hpairs1 & Habove1) & Hleaf & Hperm);
    [done|lia|done|].
  rewrite Hrun, bind_Ok. rewrite setitem_lt, bind_Ok by done.
  destruct (siftdown_ok (<[pos1:=x]> h1) pos1 x) as (h' & Hsd & Hord & Hp').
  - by apply list_lookup_insert_eq.
  - apply sd_inv_insert. split; [done|]. split; [done|].
    intros c b Hc Hpc Hb. apply lookup_lt_Some in Hb.
    apply parent_child in Hpc; [|done]. lia.
  - exists h'. split; [done|]. split; [done|].
    by rewrite Hp', Hperm, list_insert_id.
Qed.

(** *** heappush and heappop *)

(** [heappush] always returns; it adds the item and nothing else, and
    keeps the heap ordered. *)
Lemma heappush_ok (h : list A) (x : A) :
  heap_ordered key h →
  ∃ h', heappush lt h x = Ok h' ∧ heap_ordered key h' ∧ h' ≡ₚ x :: h.
Proof.
  intros Hh. unfold heappush, append.
  replace (length (h ++ [x]) - 1)%nat with (length h)
    by (rewrite length_app; simpl; lia).
  destruct (siftdown_ok (h ++ [x]) (length h) x) as (h' & Hrun & Hord & Hperm).
  - by rewrite list_lookup_middle.
  - split; [|split].
    + rewrite length_app. simpl. lia.
    + intros j a b Hj Hne Hpne Hb Ha.
      pose proof (parent_lt j Hj).
      assert (j < length h)%nat.
      { apply lookup_lt_Some in Hb. rewrite length_app in Hb. simpl in Hb. lia. }
      rewrite lookup_app_l in Hb by lia. rewrite lookup_app_l in Ha by lia.
      by eapply Hh.
    + intros c b Hc Hpc Hb. apply lookup_lt_Some in Hb.
      rewrite length_app in Hb. simpl in Hb.
      apply parent_child in Hpc; [|done]. lia.
  - exists h'. split; [done|]. split; [done|].
    rewrite Hperm. by rewrite Permutation_app_comm.
Qed.

(** [heappop] on a non-empty ordered heap returns its first item, which
    is a smallest one, removes that item and nothing else, and keeps the
    heap ordered. *)
Lemma heappop_ok (h : list A) :
  h ≠ [] → heap_ordered key h →
  ∃ r h', heappop lt h = Ok (r, h')
          ∧ h !! 0%nat = Some r
          ∧ heap_ordered key h'
          ∧ h ≡ₚ r :: h'
          ∧ ∀ b, b ∈ h → key r ≤ key b.
Proof.
  intros Hne Hh.
  assert (Hmin : ∀ r, h !! 0%nat = Some r → ∀ b, b ∈ h → key r ≤ key b).
  { intros r Hr b Hb. apply list_elem_of_lookup in Hb as [j Hj].
    by eapply heap_ordered_root. }
  destruct h as [|r0 tl0] using rev_ind; [done|]. clear IHtl0 Hne.
  rename r0 into e, tl0 into h0.
  unfold heappop, list_pop. rewrite last_snoc, removelast_last, bind_Ok.
  destruct h0 as [|r tl].
  - exists e, []. split; [done|]. split; [done|].
    split; [apply heap_ordered_nil|]. split; [done|]. by apply Hmin.
  - rewrite (getitem_Some _ 0%nat r), bind_Ok by done.
    rewrite setitem_lt, bind_Ok by (simpl; lia). simpl insert.
    destruct (siftup_ok (e :: tl) e) as (h' & Hrun & Hord & Hperm); [done| |].
    + split; [simpl; lia|]. split; [|lia].
      intros j a b Hj _ Hp0 Hb Ha.
      pose proof (parent_lt j Hj).
      destruct j as [|j]; [lia|].
      destruct (parent (S j)) as [|pj] eqn:Hpj; [done|].
      eapply (Hh (S j)); [lia| |].
      * simpl in Hb. apply lookup_lt_Some in Hb as Hl.
        simpl. by rewrite lookup_app_l.
      * rewrite Hpj. simpl in Ha. apply lookup_lt_Some in Ha as Hl.
        simpl. by rewrite lookup_app_l.
    + rewrite Hrun, bind_Ok.
      exists r, h'. split; [done|]. split; [done|]. split; [done|].
      split; [|by apply Hmin].
      rewrite Hperm. simpl. constructor.
      by rewrite Permutation_app_comm.
Qed.
End heap_invariant.

(** ** Running the scheduling code *)

Lemma M_bind_Ok {A B : Type} (m : M A) (k : A → M B) (w w' : World) (a : A) :
  m w = (Ok a, w') → (m ≫= k) w = k a w'.
Proof. unfold mbind, M_bind. by intros ->. Qed.

Lemma M_bind_Raise {A B : Type} (m : M A) (k : A → M B) (w w' : World) (e : Exn) :
  m w = (Raise e, w') → (m ≫= k) w = (Raise e, w').
Proof. unfold mbind, M_bind. by intros ->. Qed.

Lemma M_bind_Blocked {A B : Type} (m : M A) (k : A → M B) (w w' : World) :
  m w = (Blocked, w') → (m ≫= k) w = (Blocked, w').
Proof. unfold mbind, M_bind. by intros ->. Qed.

Lemma with_run_Ok {A : Type} (l : Lock) (body : M A) (w w' : World) (a : A) :
  body (add_trace w [EvAcquire l]) = (Ok a, w') →
  with_ l body w = (Ok a, add_trace w' [EvRelease l]).
Proof. unfold with_, add_trace. run_M. by intros ->. Qed.

Lemma Timer_lt_key (a b : Timer) :
  Timer_.__lt__ a b = bool_decide (_next_time a < _next_time b).
Proof. reflexivity. Qed.

Lemma next_delay_eq (w : World) :
  next_delay w = (delay_at (delays w) 0, drop 1 (delays w)).
Proof. unfold next_delay, delay_at. by destruct (delays w). Qed.

Lemma delay_at_drop (ds : list Z) (i j : nat) :
  delay_at (drop i ds) j = delay_at ds (i + j).
Proof.
  unfold delay_at. revert i. induction ds as [|d ds IH]; intros i.
  - rewrite drop_nil. generalize (i + j)%nat. intros k. by destruct j, k.
  - destruct i; [done|]. simpl. apply IH.
Qed.

Lemma datetime_now_run (w : World) :
  datetime_now w
  = (Ok (clock w + delay_at (delays w) 0),
     mkWorld (self w) (clock w + delay_at (delays w) 0) (drop 1 (delays w)) (trace w)).
Proof. unfold datetime_now. by rewrite next_delay_eq. Qed.

Lemma time_sleep_run (secs : Z) (w : World) :
  0 ≤ secs →
  time_sleep secs w
  = (Ok (),
     mkWorld (self w) (clock w + secs + delay_at (delays w) 0) (drop 1 (delays w))
       (trace w ++ [EvSleep secs])).
Proof.
  intros H. unfold time_sleep. rewrite decide_False by lia.
  by rewrite next_delay_eq.
Qed.

Lemma time_sleep_negative (secs : Z) (w : World) :
  secs < 0 → time_sleep secs w = (Raise ValueError, w).
Proof. intros H. unfold time_sleep. by rewrite decide_True. Qed.

Lemma Timer_init_run (period : Z) (handler : Handler) (w : World) :
  Timer_.__init__ period handler w
  = (Ok (mkTimer period handler (clock w + delay_at (delays w) 0 + period)),
     mkWorld (self w) (clock w + delay_at (delays w) 0) (drop 1 (delays w)) (trace w)).
Proof.
  unfold Timer_.__init__. erewrite M_bind_Ok by apply datetime_now_run. done.
Qed.

Lemma wait_time_late (t : Timer) (w : World) :
  _next_time t < clock w + delay_at (delays w) 0 →
  Timer_.wait_time t w
  = (Raise ValueError,
     mkWorld (self w) (clock w + delay_at (delays w) 0) (drop 1 (delays w)) (trace w)).
Proof.
  intros H. unfold Timer_.wait_time.
  erewrite M_bind_Ok by apply datetime_now_run.
  apply time_sleep_negative. lia.
Qed.

Lemma wait_time_run (t : Timer) (w : World) :
  clock w + delay_at (delays w) 0 ≤ _next_time t →
  Timer_.wait_time t w
  = (Ok (),
     mkWorld (self w) (_next_time t + delay_at (delays w) 1) (drop 2 (delays w))
       (trace w ++ [EvSleep (_next_time t - (clock w + delay_at (delays w) 0))])).
Proof.
  intros H. unfold Timer_.wait_time.
  erewrite M_bind_Ok by apply datetime_now_run.
  rewrite time_sleep_run by lia. simpl.
  rewrite delay_at_drop, drop_drop. repeat f_equal. lia.
Qed.

Lemma handle_late (t : Timer) (w : World) :
  _next_time t < clock w + delay_at (delays w) 0 →
  Timer_.handle t w
  = (Raise ValueError,
     mkWorld (self w) (clock w + delay_at (delays w) 0) (drop 1 (delays w)) (trace w)).
Proof.
  intros H. unfold Timer_.handle.
  erewrite M_bind_Raise by (by apply wait_time_late). done.
Qed.

Lemma handle_run (t : Timer) (w : World) :
  clock w + delay_at (delays w) 0 ≤ _next_time t →
  Timer_.handle t w
  = (Ok (mkTimer (_period t) (_handler t)
           (_next_time t + delay_at (delays w) 1 + delay_at (delays w) 2 + _period t)),
     mkWorld (self w)
       (_next_time t + delay_at (delays w) 1 + delay_at (delays w) 2)
       (drop 3 (delays w))
       (trace w ++ [EvSleep (_next_time t - (clock w + delay_at (delays w) 0))])).
Proof.
  intros H. unfold Timer_.handle.
  erewrite M_bind_Ok by (by apply wait_time_run).
  erewrite M_bind_Ok by apply datetime_now_run. simpl.
  by rewrite delay_at_drop, drop_drop.
Qed.

Lemma get_cont_val_run (w : World) :
  get_cont_val w
  = (Ok (_continue (self w)),
     add_trace w [EvAcquire ContinueLock; EvRelease ContinueLock]).
Proof.
  unfold get_cont_val, with_, add_trace. run_M. by rewrite <- app_assoc.
Qed.

Lemma push_phase_run (t : Timer) (h : list Timer) (w : World) :
  heappush Timer_.__lt__ (_timers (self w)) t = Ok h →
  with_ TimersCv (heappush_timers t ;; notify) w
  = (Ok (),
     add_trace (with_timers w h)
       [EvAcquire TimersCv; EvHeappush t; EvNotify; EvRelease TimersCv]).
Proof.
  intros H. unfold with_, heappush_timers, notify, add_trace, with_timers.
  run_M. rewrite H. simpl. by rewrite <- !app_assoc.
Qed.

Lemma pop_phase_empty (w : World) :
  _timers (self w) = [] →
  with_ TimersCv (wait_for timer_status ;; heappop_timers) w
  = (Blocked, add_trace w [EvAcquire TimersCv; EvWait]).
Proof.
  intros H. unfold with_, wait_for, timer_status, add_trace.
  run_M. rewrite H. simpl. by rewrite <- !app_assoc.
Qed.

Lemma pop_phase_run (r : Timer) (h : list Timer) (w : World) :
  _timers (self w) ≠ [] →
  heappop Timer_.__lt__ (_timers (self w)) = Ok (r, h) →
  with_ TimersCv (wait_for timer_status ;; heappop_timers) w
  = (Ok r,
     add_trace (with_timers w h)
       [EvAcquire TimersCv; EvHeappop r; EvRelease TimersCv]).
Proof.
  intros Hne H.
  unfold with_, wait_for, timer_status, heappop_timers, add_trace, with_timers.
  run_M. rewrite bool_decide_eq_true_2 by done. simpl. rewrite H. simpl.
  by rewrite <- !app_assoc.
Qed.

Lemma add_timer_run (period : Z) (handler : Handler) (h : list Timer) (w : World) :
  heappush Timer_.__lt__ (_timers (self w))
    (mkTimer period handler (clock w + delay_at (delays w) 0 + period)) = Ok h →
  add_timer period handler w
  = (Ok (),
     mkWorld (mkConn (mav (self w)) (_stacks (self w)) h (_continue (self w)))
       (clock w + delay_at (delays w) 0) (drop 1 (delays w))
       (trace w
        ++ [EvAcquire TimersCv;
            EvHeappush
              (mkTimer period handler (clock w + delay_at (delays w) 0 + period));
            EvNotify; EvRelease TimersCv])).
Proof.
  intros H. unfold add_timer. erewrite with_run_Ok.
  2: { erewrite M_bind_Ok by apply Timer_init_run.
       unfold heappush_timers, notify. run_M. rewrite H. simpl. reflexivity. }
  unfold add_trace. simpl. by rewrite <- !app_assoc.
Qed.

Lemma timer_work_stopped (w : World) :
  _continue (self w) = false →
  timer_work w
  = (Ok (), add_trace w [EvAcquire ContinueLock; EvRelease ContinueLock]).
Proof.
  intros H. unfold timer_work.
  erewrite M_bind_Ok by apply get_cont_val_run. by rewrite H.
Qed.

Lemma timer_work_empty (w : World) :
  _continue (self w) = true → _timers (self w) = [] →
  timer_work w
  = (Blocked,
     add_trace w [EvAcquire ContinueLock; EvRelease ContinueLock;
                  EvAcquire TimersCv; EvWait]).
Proof.
  intros Hc He. unfold timer_work.
  erewrite M_bind_Ok by apply get_cont_val_run. rewrite Hc.
  erewrite M_bind_Blocked by (by apply pop_phase_empty).
  unfold add_trace. simpl. by rewrite <- app_assoc.
Qed.

Lemma timer_work_late (w : World) (r : Timer) (h1 : list Timer) :
  _continue (self w) = true → _timers (self w) ≠ [] →
  heappop Timer_.__lt__ (_timers (self w)) = Ok (r, h1) →
  _next_time r < clock w + delay_at (delays w) 0 →
  timer_work w
  = (Raise ValueError,
     mkWorld (mkConn (mav (self w)) (_stacks (self w)) h1 true)
       (clock w + delay_at (delays w) 0) (drop 1 (delays w))
       (trace w ++ failed_pass_events r)).
Proof.
  intros Hc Hne Hpop Hlate. unfold timer_work.
  erewrite M_bind_Ok by apply get_cont_val_run. rewrite Hc.
  erewrite M_bind_Ok by (by apply pop_phase_run).
  erewrite M_bind_Raise by (by apply handle_late).
  unfold add_trace, with_timers. simpl. rewrite Hc. by rewrite <- app_assoc.
Qed.

Lemma timer_work_fire (w : World) (r : Timer) (h1 h2 : list Timer) :
  _continue (self w) = true → _timers (self w) ≠ [] →
  heappop Timer_.__lt__ (_timers (self w)) = Ok (r, h1) →
  clock w + delay_at (delays w) 0 ≤ _next_time r →
  heappush Timer_.__lt__ h1 (rearmed r w) = Ok h2 →
  timer_work w
  = (Ok (),
     mkWorld (mkConn (mav (self w)) (_stacks (self w)) h2 true)
       (_next_time r + delay_at (delays w) 1 + delay_at (delays w) 2)
       (drop 3 (delays w))
       (trace w
        ++ pass_events r (_next_time r - (clock w + delay_at (delays w) 0))
             (rearmed r w))).
Proof.
  intros Hc Hne Hpop Hdue Hpush. unfold timer_work.
  erewrite M_bind_Ok by apply get_cont_val_run. rewrite Hc.
  erewrite M_bind_Ok by (by apply pop_phase_run).
  erewrite M_bind_Ok by (by apply handle_run).
  erewrite push_phase_run by exact Hpush.
  unfold add_trace, with_timers. simpl. rewrite Hc. by rewrite <- !app_assoc.
Qed.

(** ** Timers *)

(** C1 (as amended).  A new timer is due one period after the clock reading
    taken at its creation.  A [handle] that completes re-arms the timer one
    period after the clock reading taken once the wait is over, not one
    period after the previous due time: the new due time misses "previous
    due time plus one period" by exactly as much as that reading misses the
    previous due time, and the two agree only when the reading equals the
    previous due time. *)
Theorem C1_next_time_rearmed_from_clock
    (period : Z) (handler : Handler) (t : Timer) (w : World) :
  (∃ t0 w0, Timer_.__init__ period handler w = (Ok t0, w0)
            ∧ _period t0 = period ∧ _handler t0 = handler
            ∧ _next_time t0 = clock w0 + period)
  ∧ (clock w + delay_at (delays w) 0 ≤ _next_time t →
     ∃ t' w', Timer_.handle t w = (Ok t', w')
              ∧ _period t' = _period t ∧ _handler t' = _handler t
              ∧ _next_time t' = clock w' + _period t
              ∧ _next_time t' - (_next_time t + _period t)
                = clock w' - _next_time t
              ∧ (_next_time t' = _next_time t + _period t
                 ↔ clock w' = _next_time t)).
Proof.
  split.
  - eexists _, _. rewrite Timer_init_run. by repeat split.
  - intros Hdue. eexists _, _. rewrite handle_run by done.
    repeat split; cbn [_next_time _period _handler clock]; lia.
Qed.

Lemma C1_next_time_rearmed_from_clock_witness :
  (∃ t0 w0, Timer_.__init__ 1000000 7%nat drifting_world = (Ok t0, w0)
            ∧ _period t0 = 1000000 ∧ _handler t0 = 7%nat
            ∧ _next_time t0 = clock w0 + 1000000)
  ∧ ∃ t' w', Timer_.handle (mkTimer 1000000 7%nat 1000000) late_reading_world
               = (Ok t', w')
             ∧ _period t' = 1000000 ∧ _handler t' = 7%nat
             ∧ _next_time t' = clock w' + 1000000
             ∧ _next_time t' - (1000000 + 1000000) = clock w' - 1000000
             ∧ (_next_time t' = 1000000 + 1000000 ↔ clock w' = 1000000)
             ∧ _next_time t' = 2000500.
Proof.
  split.
  - exact (proj1 (C1_next_time_rearmed_from_clock 1000000 7%nat
                    (mkTimer 1000000 7%nat 1000000) drifting_world)).
  - destruct (proj2 (C1_next_time_rearmed_from_clock 1000000 7%nat
                       (mkTimer 1000000 7%nat 1000000) late_reading_world))
      as (t' & w' & Hrun & Hp & Hh & Hnext & Hmiss & Hiff).
    + vm_compute. discriminate.
    + exists t', w'. repeat (split; [assumption|]).
      vm_compute in Hrun. by injection Hrun as <- <-.
Defined.

(** C1 fails as stated: a timer of period 1 s created at time 0 is first due
    at 1 s; its first [handle] sleeps until then, reads the clock 500
    microseconds later, and re-arms the timer for 2.0005 s, which is not
    one period after the previous due time. *)
Lemma C1_counterexample :
  Timer_.__init__ 1000000 7%nat drifting_world
    = (Ok (mkTimer 1000000 7%nat 1000000),
       mkWorld (__init__ 0%nat) 0 [0; 0; 500] [])
  ∧ Timer_.handle (mkTimer 1000000 7%nat 1000000)
      (mkWorld (__init__ 0%nat) 0 [0; 0; 500] [])
    = (Ok (mkTimer 1000000 7%nat 2000500),
       mkWorld (__init__ 0%nat) 1000500 [] [EvSleep 1000000])
  ∧ _next_time (mkTimer 1000000 7%nat 2000500)
    ≠ _next_time (mkTimer 1000000 7%nat 1000000)
      + _period (mkTimer 1000000 7%nat 1000000).
Proof. split; [|split]; [vm_compute; reflexivity..|discriminate]. Qed.

(** C5 (failing input).  When the due time is earlier than the clock reading
    taken by [wait_time], the sleep length is negative and [time.sleep]
    raises [ValueError]: the wait fails, and so does [handle], without
    re-arming the timer. *)
Theorem C5_wait_time_past_due_raises (t : Timer) (w : World) :
  _next_time t < clock w + delay_at (delays w) 0 →
  ∃ w', Timer_.wait_time t w = (Raise ValueError, w')
        ∧ Timer_.handle t w = (Raise ValueError, w')
        ∧ trace w' = trace w.
Proof.
  intros H. eexists. rewrite wait_time_late, handle_late by done. done.
Qed.

Lemma C5_wait_time_past_due_raises_witness :
  ∃ w', Timer_.wait_time (mkTimer 100000 7%nat 1000000) (new_world 0%nat 1500000 [])
          = (Raise ValueError, w')
        ∧ Timer_.handle (mkTimer 100000 7%nat 1000000) (new_world 0%nat 1500000 [])
          = (Raise ValueError, w')
        ∧ trace w' = trace (new_world 0%nat 1500000 []).
Proof.
  apply (C5_wait_time_past_due_raises (mkTimer 100000 7%nat 1000000)
           (new_world 0%nat 1500000 [])).
  vm_compute. reflexivity.
Defined.

(** ** The scheduling pass *)

Lemma one_timer_world_reached :
  add_timer 100000 7%nat (new_world 0%nat 0 []) = (Ok (), one_timer_world).
Proof. vm_compute. reflexivity. Qed.

(** C3 (failing input).  [timer_work] reads [_continue] once.  When it is
    false the call returns at once.  When it is true and a timer is queued
    that is not yet overdue, the call makes one pass (pop, sleep, re-arm,
    push) and returns to its caller with [_continue] still true and the
    queue still populated: the pass is not repeated. *)
Theorem C3_timer_work_single_pass :
  (∀ w : World,
     _continue (self w) = false →
     timer_work w
     = (Ok (), add_trace w [EvAcquire ContinueLock; EvRelease ContinueLock]))
  ∧ (∀ w : World,
       _continue (self w) = true → timers_ordered w → _timers (self w) ≠ [] →
       (∀ t, t ∈ _timers (self w) → clock w + delay_at (delays w) 0 ≤ _next_time t) →
       ∃ w' d popped pushed,
         timer_work w = (Ok (), w')
         ∧ _continue (self w') = true
         ∧ length (_timers (self w')) = length (_timers (self w))
         ∧ trace w'
           = trace w ++ [EvAcquire ContinueLock; EvRelease ContinueLock;
                         EvAcquire TimersCv; EvHeappop popped; EvRelease TimersCv;
                         EvSleep d;
                         EvAcquire TimersCv; EvHeappush pushed; EvNotify;
                         EvRelease TimersCv]).
Proof.
  split; [apply timer_work_stopped|].
  intros w Hc Hord Hne Hdue.
  destruct (heappop_ok _next_time Timer_.__lt__ Timer_lt_key _ Hne Hord)
    as (r & h1 & Hpop & Hr & Hord1 & Hperm1 & _).
  destruct (heappush_ok _next_time Timer_.__lt__ Timer_lt_key h1 (rearmed r w) Hord1)
    as (h2 & Hpush & Hord2 & Hperm2).
  assert (Hrdue : clock w + delay_at (delays w) 0 ≤ _next_time r).
  { apply Hdue. apply list_elem_of_lookup. eauto. }
  eexists _, _, _, _. rewrite (timer_work_fire w r h1 h2) by done.
  split; [done|]. split; [done|]. split; [|done]. simpl.
  by rewrite Hperm2, Hperm1.
Qed.

Lemma C3_timer_work_single_pass_witness :
  timer_work (new_world 0%nat 0 [])
    = (Blocked,
       add_trace (new_world 0%nat 0 [])
         [EvAcquire ContinueLock; EvRelease ContinueLock; EvAcquire TimersCv; EvWait])
  ∧ (∃ w1, stop one_timer_world = (Ok (), w1)
           ∧ timer_work w1
             = (Ok (), add_trace w1 [EvAcquire ContinueLock; EvRelease ContinueLock]))
  ∧ ∃ w' d popped pushed,
      timer_work one_timer_world = (Ok (), w')
      ∧ _continue (self w') = true
      ∧ length (_timers (self w')) = length (_timers (self one_timer_world))
      ∧ trace w'
        = trace one_timer_world
          ++ [EvAcquire ContinueLock; EvRelease ContinueLock;
              EvAcquire TimersCv; EvHeappop popped; EvRelease TimersCv;
              EvSleep d;
              EvAcquire TimersCv; EvHeappush pushed; EvNotify;
              EvRelease TimersCv].
Proof.
  destruct C3_timer_work_single_pass as [Hstop Hpass].
  split; [|split].
  - vm_compute. reflexivity.
  - eexists. split; [apply stop_run|]. apply Hstop. reflexivity.
  - apply (Hpass one_timer_world).
    + reflexivity.
    + apply heap_orderedb_spec. vm_compute. reflexivity.
    + discriminate.
    + intros t Ht. apply list_elem_of_singleton in Ht as ->. vm_compute. discriminate.
Defined.

(** *** Handlers handed to workers *)

Lemma no_submit_ret {A : Type} (a : A) : no_submit (mret a : M A).
Proof. by intros w. Qed.

Lemma no_submit_bind {A B : Type} (m : M A) (k : A → M B) :
  no_submit m → (∀ a, no_submit (k a)) → no_submit (m ≫= k).
Proof.
  intros Hm Hk w. unfold mbind, M_bind. specialize (Hm w).
  destruct (m w) as [[a|e| |] w1]; simpl in *; [|done..].
  by rewrite Hk.
Qed.

Lemma no_submit_emit (e : Event) :
  (∀ h, e ≠ EvSubmit h) → no_submit (emit e).
Proof.
  intros He w. unfold emit, submissions. simpl. rewrite omap_app. simpl.
  destruct e; try by rewrite app_nil_r. by destruct (He h).
Qed.

Lemma no_submit_with {A : Type} (l : Lock) (body : M A) :
  no_submit body → no_submit (with_ l body).
Proof.
  intros Hb w. unfold with_.
  pose proof (no_submit_bind (emit (EvAcquire l)) (λ _, body)) as H.
  specialize (H (no_submit_emit (EvAcquire l) ltac:(intros ?; discriminate)) (λ _, Hb) w).
  destruct ((emit (EvAcquire l) ;; body) w) as [[a|e| |] w1]; simpl in *; [| |done..].
  - rewrite <- H. unfold submissions. rewrite omap_app. simpl.
    by rewrite app_nil_r.
  - rewrite <- H. unfold submissions. rewrite omap_app. simpl.
    by rewrite app_nil_r.
Qed.

Lemma no_submit_lift {A : Type} (r : Result A) : no_submit (lift r).
Proof. by intros w. Qed.

Lemma no_submit_get_self : no_submit get_self.
Proof. by intros w. Qed.

Lemma no_submit_set_timers (h : list Timer) : no_submit (set_timers h).
Proof. by intros w. Qed.

Lemma no_submit_datetime_now : no_submit datetime_now.
Proof. intros w. unfold datetime_now. by destruct (next_delay w). Qed.

Lemma no_submit_time_sleep (secs : Z) : no_submit (time_sleep secs).
Proof.
  intros w. unfold time_sleep. destruct (decide (secs < 0)); [done|].
  destruct (next_delay w). unfold submissions. simpl.
  rewrite omap_app. simpl. by rewrite app_nil_r.
Qed.

Lemma no_submit_handle (t : Timer) : no_submit (Timer_.handle t).
Proof.
  unfold Timer_.handle, Timer_.wait_time.
  repeat (apply no_submit_bind; [|intros ?]);
    auto using no_submit_datetime_now, no_submit_time_sleep, no_submit_ret.
Qed.

Lemma no_submit_push_phase (t : Timer) :
  no_submit (with_ TimersCv (heappush_timers t ;; notify)).
Proof.
  apply no_submit_with. unfold heappush_timers, notify.
  apply no_submit_bind.
  - apply no_submit_bind; [apply no_submit_get_self|]. intros c.
    apply no_submit_bind; [apply no_submit_lift|]. intros h.
    apply no_submit_bind; [apply no_submit_set_timers|]. intros _.
    apply no_submit_emit. intros ?; discriminate.
  - intros _. apply no_submit_emit. intros ?; discriminate.
Qed.

Lemma no_submit_pop_phase :
  no_submit (with_ TimersCv (wait_for timer_status ;; heappop_timers)).
Proof.
  apply no_submit_with. unfold wait_for, timer_status, heappop_timers.
  apply no_submit_bind.
  - apply no_submit_bind.
    + apply no_submit_bind; [apply no_submit_get_self|]. intros c.
      apply no_submit_ret.
    + intros [|]; [apply no_submit_ret|].
      apply no_submit_bind; [apply no_submit_emit; intros ?; discriminate|].
      by intros _ w.
  - intros _. apply no_submit_bind; [apply no_submit_get_self|]. intros c.
    apply no_submit_bind; [apply no_submit_lift|]. intros [t h].
    apply no_submit_bind; [apply no_submit_set_timers|]. intros _.
    apply no_submit_bind; [apply no_submit_emit; intros ?; discriminate|].
    intros _. apply no_submit_ret.
Qed.

Lemma no_submit_timer_work : no_submit timer_work.
Proof.
  unfold timer_work, get_cont_val. apply no_submit_bind.
  - apply no_submit_with. apply no_submit_bind; [apply no_submit_get_self|].
    intros c. apply no_submit_ret.
  - intros [|]; [|apply no_submit_ret].
    apply no_submit_bind; [apply no_submit_pop_phase|]. intros t.
    apply no_submit_bind; [apply no_submit_handle|]. intros t'.
    apply no_submit_push_phase.
Qed.

(** C4 (failing input).  No call of [timer_work] hands a handler to a
    worker, whatever its outcome.  For a timer of period 0.1 s added at time
    0, three passes of [timer_work] bring the clock to 0.3 s and re-arm the
    timer for 0.4 s, and the handler was submitted 0 times. *)
Theorem C4_handler_never_submitted :
  (∀ w : World, submissions (trace (snd (timer_work w))) = submissions (trace w))
  ∧ ∃ w',
      (add_timer 100000 7%nat ;; timer_work ;; timer_work ;; timer_work)
        (new_world 0%nat 0 []) = (Ok (), w')
      ∧ clock w' = 300000
      ∧ _timers (self w') = [mkTimer 100000 7%nat 400000]
      ∧ submissions (trace w') = [].
Proof.
  split; [apply no_submit_timer_work|].
  eexists. split; [vm_compute; reflexivity|]. by repeat split.
Qed.

(** ** The timer queue *)

Lemma timer_work_ordered (w : World) :
  timers_ordered w → timers_ordered (snd (timer_work w)).
Proof.
  intros Hord. destruct (_continue (self w)) eqn:Hc.
  - destruct (decide (_timers (self w) = [])) as [He|Hne].
    + by rewrite timer_work_empty.
    + destruct (heappop_ok _next_time Timer_.__lt__ Timer_lt_key _ Hne Hord)
        as (r & h1 & Hpop & _ & Hord1 & _).
      destruct (decide (_next_time r < clock w + delay_at (delays w) 0))
        as [Hlate|Hdue].
      * by rewrite (timer_work_late w r h1).
      * destruct (heappush_ok _next_time Timer_.__lt__ Timer_lt_key
                    h1 (rearmed r w) Hord1) as (h2 & Hpush & Hord2 & _).
        rewrite (timer_work_fire w r h1 h2) by (done || lia). done.
  - by rewrite timer_work_stopped.
Qed.

Lemma heappop_timers_run (w : World) (r : Timer) (h : list Timer) :
  heappop Timer_.__lt__ (_timers (self w)) = Ok (r, h) →
  heappop_timers w = (Ok r, add_trace (with_timers w h) [EvHeappop r]).
Proof. intros H. unfold heappop_timers. run_M. by rewrite H. Qed.

(** C7.  The timer queue is a heap on [_next_time] at every point: it is
    one when the connection is created; [add_timer] and [timer_work] keep
    it one, whatever the outcome; and the first entry of such a queue has
    the smallest [_next_time] of all entries.  The comparisons of [Timer]
    compare [_next_time].  [add_timer] adds exactly the new entry; its
    [heappush] comes after the acquisition of [_timers_cv] and before the
    [notify], which comes before the release.  The [heappop] of the
    scheduling pass returns the first entry and leaves a heap of the others;
    and a pass of [timer_work] on a non-empty queue pops, between acquiring
    and releasing [_timers_cv], an entry with the smallest [_next_time],
    then either fails on it, leaving the other entries, or pushes it back
    re-armed beside the other entries, again under [_timers_cv] and followed
    by [notify]. *)
Theorem C7_timer_queue_min_first :
  (∀ a b : Timer,
     Timer_.__lt__ a b = bool_decide (_next_time a < _next_time b)
     ∧ Timer_.__le__ a b = bool_decide (_next_time a ≤ _next_time b)
     ∧ Timer_.__gt__ a b = bool_decide (_next_time b < _next_time a)
     ∧ Timer_.__ge__ a b = bool_decide (_next_time b ≤ _next_time a)
     ∧ Timer_.__eq__ a b = bool_decide (_next_time a = _next_time b)
     ∧ Timer_.__ne__ a b = bool_decide (_next_time a ≠ _next_time b))
  ∧ (∀ (mavfile : Mavfile) (now : Z) (ds : list Z),
       timers_ordered (new_world mavfile now ds))
  ∧ (∀ (w : World) (r : Timer),
       timers_ordered w → _timers (self w) !! 0%nat = Some r →
       ∀ t, t ∈ _timers (self w) → _next_time r ≤ _next_time t)
  ∧ (∀ (w : World) (period : Z) (handler : Handler),
       timers_ordered w →
       ∃ w', add_timer period handler w = (Ok (), w')
             ∧ timers_ordered w'
             ∧ _timers (self w')
               ≡ₚ mkTimer period handler (clock w' + period) :: _timers (self w)
             ∧ trace w'
               = trace w
                 ++ [EvAcquire TimersCv;
                     EvHeappush (mkTimer period handler (clock w' + period));
                     EvNotify; EvRelease TimersCv])
  ∧ (∀ w : World,
       timers_ordered w → _timers (self w) ≠ [] →
       ∃ r h, heappop_timers w
              = (Ok r, add_trace (with_timers w h) [EvHeappop r])
              ∧ _timers (self w) !! 0%nat = Some r
              ∧ _timers (self w) ≡ₚ r :: h
              ∧ (∀ t, t ∈ _timers (self w) → _next_time r ≤ _next_time t)
              ∧ timers_ordered (with_timers w h))
  ∧ (∀ w : World, timers_ordered w → timers_ordered (snd (timer_work w)))
  ∧ (∀ w : World,
       _continue (self w) = true → timers_ordered w → _timers (self w) ≠ [] →
       ∃ r rest w',
         _timers (self w) !! 0%nat = Some r
         ∧ (∀ t, t ∈ _timers (self w) → _next_time r ≤ _next_time t)
         ∧ _timers (self w) ≡ₚ r :: rest
         ∧ ((_next_time r < clock w + delay_at (delays w) 0
             ∧ timer_work w = (Raise ValueError, w')
             ∧ _timers (self w') ≡ₚ rest
             ∧ trace w'
               = trace w
                 ++ [EvAcquire ContinueLock; EvRelease ContinueLock;
                     EvAcquire TimersCv; EvHeappop r; EvRelease TimersCv])
            ∨ (clock w + delay_at (delays w) 0 ≤ _next_time r
               ∧ timer_work w = (Ok (), w')
               ∧ ∃ pushed d,
                   _period pushed = _period r ∧ _handler pushed = _handler r
                   ∧ _next_time pushed = clock w' + _period r
                   ∧ _timers (self w') ≡ₚ pushed :: rest
                   ∧ trace w'
                     = trace w
                       ++ [EvAcquire ContinueLock; EvRelease ContinueLock;
                           EvAcquire TimersCv; EvHeappop r; EvRelease TimersCv;
                           EvSleep d;
                           EvAcquire TimersCv; EvHeappush pushed; EvNotify;
                           EvRelease TimersCv]))).
Proof.
  split; [|split; [|split; [|split; [|split; [|split]]]]].
  - intros a b. repeat split; unfold Timer_.__gt__, Timer_.__ge__;
      apply bool_decide_ext; lia.
  - intros mavfile now ds. apply heap_ordered_nil.
  - intros w r Hord Hr t Ht. apply list_elem_of_lookup in Ht as [j Hj].
    by eapply (heap_ordered_root _next_time).
  - intros w period handler Hord.
    destruct (heappush_ok _next_time Timer_.__lt__ Timer_lt_key (_timers (self w))
                (mkTimer period handler (clock w + delay_at (delays w) 0 + period))
                Hord) as (h & Hpush & Hordh & Hperm).
    eexists. rewrite (add_timer_run _ _ h) by done. by repeat split.
  - intros w Hord Hne.
    destruct (heappop_ok _next_time Timer_.__lt__ Timer_lt_key _ Hne Hord)
      as (r & h & Hpop & Hr & Hordh & Hperm & Hmin).
    exists r, h. by rewrite (heappop_timers_run w r h).
  - apply timer_work_ordered.
  - intros w Hc Hord Hne.
    destruct (heappop_ok _next_time Timer_.__lt__ Timer_lt_key _ Hne Hord)
      as (r & h1 & Hpop & Hr & Hord1 & Hperm1 & Hmin).
    destruct (decide (_next_time r < clock w + delay_at (delays w) 0))
      as [Hlate|Hdue].
    + eexists r, h1, _. split; [done|]. split; [done|]. split; [done|]. left.
      rewrite (timer_work_late w r h1) by done. by repeat split.
    + destruct (heappush_ok _next_time Timer_.__lt__ Timer_lt_key
                  h1 (rearmed r w) Hord1) as (h2 & Hpush & Hord2 & Hperm2).
      eexists r, h1, _. split; [done|]. split; [done|]. split; [done|]. right.
      rewrite (timer_work_fire w r h1 h2) by (done || lia).
      split; [lia|]. split; [done|].
      exists (rearmed r w), (_next_time r - (clock w + delay_at (delays w) 0)).
      by repeat split.
Qed.

Lemma C7_timer_queue_min_first_witness :
  (∀ t, t ∈ _timers (self three_timer_world) →
        _next_time (mkTimer 50000 8%nat 50000) ≤ _next_time t)
  ∧ (∃ w', add_timer 20000 5%nat three_timer_world = (Ok (), w')
           ∧ timers_ordered w'
           ∧ _timers (self w')
             ≡ₚ mkTimer 20000 5%nat (clock w' + 20000)
                :: _timers (self three_timer_world)
           ∧ trace w'
             = trace three_timer_world
               ++ [EvAcquire TimersCv;
                   EvHeappush (mkTimer 20000 5%nat (clock w' + 20000));
                   EvNotify; EvRelease TimersCv])
  ∧ (∃ r h, heappop_timers three_timer_world
            = (Ok r, add_trace (with_timers three_timer_world h) [EvHeappop r])
            ∧ _timers (self three_timer_world) !! 0%nat = Some r
            ∧ _timers (self three_timer_world) ≡ₚ r :: h
            ∧ (∀ t, t ∈ _timers (self three_timer_world) →
                    _next_time r ≤ _next_time t)
            ∧ timers_ordered (with_timers three_timer_world h))
  ∧ timers_ordered (snd (timer_work three_timer_world))
  ∧ ∃ r rest w',
      _timers (self three_timer_world) !! 0%nat = Some r
      ∧ (∀ t, t ∈ _timers (self three_timer_world) → _next_time r ≤ _next_time t)
      ∧ _timers (self three_timer_world) ≡ₚ r :: rest
      ∧ ((_next_time r < clock three_timer_world + delay_at (delays three_timer_world) 0
          ∧ timer_work three_timer_world = (Raise ValueError, w')
          ∧ _timers (self w') ≡ₚ rest
          ∧ trace w'
            = trace three_timer_world
              ++ [EvAcquire ContinueLock; EvRelease ContinueLock;
                  EvAcquire TimersCv; EvHeappop r; EvRelease TimersCv])
         ∨ (clock three_timer_world + delay_at (delays three_timer_world) 0
              ≤ _next_time r
            ∧ timer_work three_timer_world = (Ok (), w')
            ∧ ∃ pushed d,
                _period pushed = _period r ∧ _handler pushed = _handler r
                ∧ _next_time pushed = clock w' + _period r
                ∧ _timers (self w') ≡ₚ pushed :: rest
                ∧ trace w'
                  = trace three_timer_world
                    ++ [EvAcquire ContinueLock; EvRelease ContinueLock;
                        EvAcquire TimersCv; EvHeappop r; EvRelease TimersCv;
                        EvSleep d;
                        EvAcquire TimersCv; EvHeappush pushed; EvNotify;
                        EvRelease TimersCv])).
Proof.
  destruct C7_timer_queue_min_first
    as (_ & _ & Hroot & Hadd & Hpop & Hwork & Hpass).
  split; [|split; [|split; [|split]]].
  - apply (Hroot three_timer_world (mkTimer 50000 8%nat 50000)).
    + apply heap_orderedb_spec. vm_compute. reflexivity.
    + reflexivity.
  - apply (Hadd three_timer_world 20000 5%nat).
    apply heap_orderedb_spec. vm_compute. reflexivity.
  - apply (Hpop three_timer_world).
    + apply heap_orderedb_spec. vm_compute. reflexivity.
    + discriminate.
  - apply (Hwork three_timer_world).
    apply heap_orderedb_spec. vm_compute. reflexivity.
  - apply (Hpass three_timer_world).
    + reflexivity.
    + apply heap_orderedb_spec. vm_compute. reflexivity.
    + discriminate.
Defined.

(** ** Further properties of the registry *)

(** X1.  [push_handler] always succeeds; it puts the handler at the end of
    the stack of its message type and leaves every other stack, the timer
    queue, the flag, the transport, the clock and the trace as they were. *)
Theorem X1_push_handler_frame (w : World) (name : string) (h : Handler) :
  ∃ w', push_handler name h w = (Ok (), w')
        ∧ stack_of w' name = stack_of w name ++ [h]
        ∧ (∀ other, other ≠ name →
             _stacks (self w') !! other = _stacks (self w) !! other)
        ∧ _timers (self w') = _timers (self w)
        ∧ _continue (self w') = _continue (self w)
        ∧ mav (self w') = mav (self w)
        ∧ clock w' = clock w ∧ delays w' = delays w ∧ trace w' = trace w.
Proof.
  eexists. rewrite push_handler_run. split; [done|]. split.
  - unfold stack_of at 1, with_stack. simpl. by rewrite lookup_insert_eq.
  - split; [|done]. intros other Hne. simpl. by rewrite lookup_insert_ne.
Qed.

Lemma pop_handler_world (w : World) (name : string) :
  ∃ l, snd (pop_handler name w) = with_stack w name l.
Proof.
  destruct (stack_of w name) as [|h0 l0] eqn:E using rev_ind.
  - exists []. by rewrite pop_handler_none.
  - exists l0. rewrite (pop_handler_some w name l0 h0); [done|].
    unfold stack_of in E. destruct (_stacks (self w) !! name) as [l|]; simpl in E.
    + by rewrite E.
    + by destruct l0.
Qed.

(** X2.  Whatever its outcome, [pop_handler] touches no stack but the one
    of its message type, and nothing outside the registry. *)
Theorem X2_pop_handler_frame (w : World) (name other : string) :
  other ≠ name →
  _stacks (self (snd (pop_handler name w))) !! other = _stacks (self w) !! other
  ∧ _timers (self (snd (pop_handler name w))) = _timers (self w)
  ∧ _continue (self (snd (pop_handler name w))) = _continue (self w)
  ∧ mav (self (snd (pop_handler name w))) = mav (self w)
  ∧ clock (snd (pop_handler name w)) = clock w
  ∧ trace (snd (pop_handler name w)) = trace w.
Proof.
  intros Hne. destruct (pop_handler_world w name) as [l ->].
  split; [|done]. simpl. by rewrite lookup_insert_ne.
Qed.

Lemma X2_pop_handler_frame_witness :
  _stacks (self (snd (pop_handler "GPS_RAW_INT" heartbeat_world))) !! "HEARTBEAT"%string
    = _stacks (self heartbeat_world) !! "HEARTBEAT"%string
  ∧ _timers (self (snd (pop_handler "GPS_RAW_INT" heartbeat_world)))
    = _timers (self heartbeat_world)
  ∧ _continue (self (snd (pop_handler "GPS_RAW_INT" heartbeat_world)))
    = _continue (self heartbeat_world)
  ∧ mav (self (snd (pop_handler "GPS_RAW_INT" heartbeat_world)))
    = mav (self heartbeat_world)
  ∧ clock (snd (pop_handler "GPS_RAW_INT" heartbeat_world)) = clock heartbeat_world
  ∧ trace (snd (pop_handler "GPS_RAW_INT" heartbeat_world)) = trace heartbeat_world.
Proof.
  apply (X2_pop_handler_frame heartbeat_world "GPS_RAW_INT"%string "HEARTBEAT"%string).
  discriminate.
Defined.

(** X3.  For a non-empty message type that has no stack, [clear_handler]
    raises [KeyError] and changes nothing; but once a [pop_handler] has
    failed on that type, the same [clear_handler] succeeds, and it brings
    the registry back to what it was before the pop. *)
Theorem X3_failed_pop_then_clear (w : World) (name : string) :
  name ≠ EmptyString →
  _stacks (self w) !! name = None →
  clear_handler (Some name) w = (Raise KeyError, w)
  ∧ ∃ w1 w2, pop_handler name w = (Raise KeyError, w1)
             ∧ clear_handler (Some name) w1 = (Ok (), w2)
             ∧ _stacks (self w2) = _stacks (self w).
Proof.
  intros Hne Hnone. split; [by apply clear_handler_absent|].
  eexists _, _. split.
  - apply pop_handler_none. unfold stack_of. by rewrite Hnone.
  - split.
    + apply (clear_handler_named _ _ []); [done|].
      simpl. by rewrite lookup_insert_eq.
    + simpl. rewrite delete_insert_eq. by apply delete_id.
Qed.

Lemma X3_failed_pop_then_clear_witness :
  clear_handler (Some "GPS_RAW_INT"%string) heartbeat_world
    = (Raise KeyError, heartbeat_world)
  ∧ ∃ w1 w2, pop_handler "GPS_RAW_INT" heartbeat_world = (Raise KeyError, w1)
             ∧ clear_handler (Some "GPS_RAW_INT"%string) w1 = (Ok (), w2)
             ∧ _stacks (self w2) = _stacks (self heartbeat_world).
Proof.
  apply (X3_failed_pop_then_clear heartbeat_world "GPS_RAW_INT"%string).
  - discriminate.
  - vm_compute. reflexivity.
Defined.

(** X4.  Clearing a non-empty message type works once: the first
    [clear_handler] removes the stack, a second one on the same type raises
    [KeyError] and leaves the registry as the first call left it. *)
Theorem X4_clear_handler_twice (w : World) (name : string) :
  name ≠ EmptyString →
  is_Some (_stacks (self w) !! name) →
  ∃ w1, clear_handler (Some name) w = (Ok (), w1)
        ∧ _stacks (self w1) = delete name (_stacks (self w))
        ∧ clear_handler (Some name) w1 = (Raise KeyError, w1).
Proof.
  intros Hne [l Hl]. eexists. split; [by eapply clear_handler_named|].
  split; [done|]. apply clear_handler_absent; [done|].
  simpl. by rewrite lookup_delete_eq.
Qed.

Lemma X4_clear_handler_twice_witness :
  ∃ w1, clear_handler (Some "HEARTBEAT"%string) heartbeat_world = (Ok (), w1)
        ∧ _stacks (self w1) = delete "HEARTBEAT"%string (_stacks (self heartbeat_world))
        ∧ clear_handler (Some "HEARTBEAT"%string) w1 = (Raise KeyError, w1).
Proof.
  apply (X4_clear_handler_twice heartbeat_world "HEARTBEAT"%string).
  - discriminate.
  - eexists. vm_compute. reflexivity.
Defined.

(** X5.  After [clear_handler()] every [pop_handler] raises [KeyError],
    whatever was registered before; and a handler pushed after the clear is
    alone on its stack. *)
Theorem X5_clear_all_forgets (w : World) (name : string) (h : Handler) :
  (∃ w1, (clear_handler None ;; pop_handler name) w = (Raise KeyError, w1)
         ∧ _stacks (self w1) = {[name := []]})
  ∧ (∃ w2, (clear_handler None ;; push_handler name h) w = (Ok (), w2)
           ∧ _stacks (self w2) = {[name := [h]]}).
Proof.
  split.
  - eexists. erewrite M_bind_Ok by apply clear_handler_all.
    rewrite pop_handler_none by done. done.
  - eexists. erewrite M_bind_Ok by apply clear_handler_all.
    rewrite push_handler_run. done.
Qed.

(** X6.  A handler pushed after a per-type [clear_handler] is alone on its
    stack: the handlers registered before the clear do not come back, and
    the next pop returns the new handler. *)
Theorem X6_clear_then_push (w : World) (name : string) (h : Handler) :
  name ≠ EmptyString →
  is_Some (_stacks (self w) !! name) →
  ∃ w', (clear_handler (Some name) ;; push_handler name h) w = (Ok (), w')
        ∧ stack_of w' name = [h]
        ∧ ∃ w'', pop_handler name w' = (Ok h, w'') ∧ stack_of w'' name = [].
Proof.
  intros Hne [l Hl]. eexists.
  erewrite M_bind_Ok by (by eapply clear_handler_named).
  rewrite push_handler_run. split; [done|].
  assert (Hs : stack_of (with_stacks w (delete name (_stacks (self w)))) name = []).
  { unfold stack_of. simpl. by rewrite lookup_delete_eq. }
  rewrite Hs. simpl app. split.
  - unfold stack_of, with_stack. simpl. by rewrite lookup_insert_eq.
  - eexists. split.
    + apply (pop_handler_some _ _ [] h). simpl. by rewrite lookup_insert_eq.
    + unfold stack_of, with_stack. simpl. by rewrite lookup_insert_eq.
Qed.

Lemma X6_clear_then_push_witness :
  ∃ w', (clear_handler (Some "HEARTBEAT"%string) ;; push_handler "HEARTBEAT" 5%nat)
          heartbeat_world = (Ok (), w')
        ∧ stack_of w' "HEARTBEAT" = [5%nat]
        ∧ ∃ w'', pop_handler "HEARTBEAT" w' = (Ok 5%nat, w'')
                 ∧ stack_of w'' "HEARTBEAT" = [].
Proof.
  apply (X6_clear_then_push heartbeat_world "HEARTBEAT"%string 5%nat).
  - discriminate.
  - eexists. vm_compute. reflexivity.
Defined.

(** X7.  Entering a connection as a context manager never yields the
    connection: [__enter__] raises [NameError] and changes nothing.
    [__exit__] sets [_continue] to false and keeps the registry and the
    timer queue. *)
Theorem X7_context_manager (w : World) :
  __enter__ w = (Raise NameError, w)
  ∧ ∃ w', __exit__ w = (Ok (), w')
          ∧ _continue (self w') = false
          ∧ _stacks (self w') = _stacks (self w)
          ∧ _timers (self w') = _timers (self w).
Proof.
  split; [reflexivity|]. eexists. unfold __exit__. rewrite stop_run. done.
Qed.

(** ** Further properties of timers and of the scheduling pass *)

(** X8.  [add_timer] makes the queue one entry longer and leaves the
    registry, the flag and the transport alone; it does not look at
    [_continue], so a timer added after [stop] is queued all the same. *)
Theorem X8_add_timer_frame (w : World) (period : Z) (handler : Handler) :
  timers_ordered w →
  (∃ w', add_timer period handler w = (Ok (), w')
         ∧ length (_timers (self w')) = S (length (_timers (self w)))
         ∧ _stacks (self w') = _stacks (self w)
         ∧ _continue (self w') = _continue (self w)
         ∧ mav (self w') = mav (self w))
  ∧ (∃ w', (stop ;; add_timer period handler) w = (Ok (), w')
           ∧ _continue (self w') = false
           ∧ length (_timers (self w')) = S (length (_timers (self w)))).
Proof.
  intros Hord.
  destruct (heappush_ok _next_time Timer_.__lt__ Timer_lt_key (_timers (self w))
              (mkTimer period handler (clock w + delay_at (delays w) 0 + period))
              Hord) as (h & Hpush & _ & Hperm).
  split.
  - eexists. rewrite (add_timer_run _ _ h) by done.
    split; [done|]. split; [|done]. simpl. by rewrite Hperm.
  - eexists. erewrite M_bind_Ok by apply stop_run.
    rewrite (add_timer_run _ _ h) by done.
    split; [done|]. split; [done|]. simpl. by rewrite Hperm.
Qed.

Lemma X8_add_timer_frame_witness :
  (∃ w', add_timer 20000 5%nat three_timer_world = (Ok (), w')
         ∧ length (_timers (self w')) = S (length (_timers (self three_timer_world)))
         ∧ _stacks (self w') = _stacks (self three_timer_world)
         ∧ _continue (self w') = _continue (self three_timer_world)
         ∧ mav (self w') = mav (self three_timer_world))
  ∧ (∃ w', (stop ;; add_timer 20000 5%nat) three_timer_world = (Ok (), w')
           ∧ _continue (self w') = false
           ∧ length (_timers (self w')) = S (length (_timers (self three_timer_world)))).
Proof.
  apply (X8_add_timer_frame three_timer_world 20000 5%nat).
  apply heap_orderedb_spec. vm_compute. reflexivity.
Defined.

(** X9.  When the due time is not earlier than the clock reading it takes,
    [wait_time] sleeps once, for exactly the time left on that reading, and
    leaves the connection untouched; the wall clock then stands at the due
    time moved by the step the clock itself took during the sleep. *)
Theorem X9_wait_time_sleeps_until_due (t : Timer) (w : World) :
  clock w + delay_at (delays w) 0 ≤ _next_time t →
  ∃ w' d, Timer_.wait_time t w = (Ok (), w')
          ∧ d = _next_time t - (clock w + delay_at (delays w) 0)
          ∧ 0 ≤ d
          ∧ trace w' = trace w ++ [EvSleep d]
          ∧ clock w' = _next_time t + delay_at (delays w) 1
          ∧ self w' = self w.
Proof.
  intros Hdue. eexists _, _. rewrite wait_time_run by done.
  repeat split; cbn [clock]; lia.
Qed.

Lemma X9_wait_time_sleeps_until_due_witness :
  ∃ w' d, Timer_.wait_time (mkTimer 1000000 7%nat 2000000) set_back_world = (Ok (), w')
          ∧ d = 2000000 - (clock set_back_world + delay_at (delays set_back_world) 0)
          ∧ 0 ≤ d
          ∧ trace w' = trace set_back_world ++ [EvSleep d]
          ∧ clock w' = 2000000 + delay_at (delays set_back_world) 1
          ∧ self w' = self set_back_world.
Proof.
  apply (X9_wait_time_sleeps_until_due (mkTimer 1000000 7%nat 2000000) set_back_world).
  vm_compute. discriminate.
Defined.

(** X10.  A timer whose period is smaller than the step the wall clock
    takes between its creation and the reading of its first wait (any
    negative period, when the clock does not step back) is overdue from
    birth: its first [handle] raises [ValueError]; added to a running
    connection with an empty queue, it makes the next [timer_work] raise
    [ValueError] and leaves the queue empty. *)
Theorem X10_overdue_from_creation
    (w : World) (period : Z) (handler : Handler) :
  period < delay_at (delays w) 1 →
  (∃ t w1 w2, Timer_.__init__ period handler w = (Ok t, w1)
              ∧ Timer_.handle t w1 = (Raise ValueError, w2))
  ∧ (_timers (self w) = [] → _continue (self w) = true →
     ∃ w', (add_timer period handler ;; timer_work) w = (Raise ValueError, w')
           ∧ _timers (self w') = []).
Proof.
  intros Hshort. split.
  - eexists _, _, _. rewrite Timer_init_run. split; [done|].
    apply handle_late. cbn [_next_time clock delays].
    rewrite delay_at_drop. simpl Nat.add. lia.
  - intros Hempty Hc. eexists.
    erewrite M_bind_Ok.
    2: { apply (add_timer_run _ _
                  [mkTimer period handler (clock w + delay_at (delays w) 0 + period)]).
         by rewrite Hempty. }
    erewrite (timer_work_late _ _ []); [done|done|done|reflexivity|].
    cbn [_next_time clock delays]. rewrite delay_at_drop. simpl Nat.add. lia.
Qed.

Lemma X10_overdue_from_creation_witness :
  (∃ t w1 w2, Timer_.__init__ (-100000) 7%nat (new_world 0%nat 0 []) = (Ok t, w1)
              ∧ Timer_.handle t w1 = (Raise ValueError, w2))
  ∧ ∃ w', (add_timer (-100000) 7%nat ;; timer_work) (new_world 0%nat 0 [])
            = (Raise ValueError, w')
          ∧ _timers (self w') = [].
Proof.
  destruct (X10_overdue_from_creation (new_world 0%nat 0 []) (-100000) 7%nat)
    as [Hhandle Hwork]; [reflexivity|].
  split; [exact Hhandle|]. apply Hwork; reflexivity.
Defined.

(** X11.  When the earliest timer of the queue is overdue, [timer_work]
    raises [ValueError] without sleeping, and that timer is lost: the queue
    is left holding the other timers only, still in heap order, and the
    registry is untouched. *)
Theorem X11_timer_work_overdue_drops_timer (w : World) (r : Timer) :
  _continue (self w) = true → timers_ordered w →
  _timers (self w) !! 0%nat = Some r →
  _next_time r < clock w + delay_at (delays w) 0 →
  ∃ w', timer_work w = (Raise ValueError, w')
        ∧ _timers (self w) ≡ₚ r :: _timers (self w')
        ∧ timers_ordered w'
        ∧ _stacks (self w') = _stacks (self w)
        ∧ trace w'
          = trace w ++ [EvAcquire ContinueLock; EvRelease ContinueLock;
                        EvAcquire TimersCv; EvHeappop r; EvRelease TimersCv].
Proof.
  intros Hc Hord Hr Hlate.
  assert (Hne : _timers (self w) ≠ []) by (intros E; by rewrite E in Hr).
  destruct (heappop_ok _next_time Timer_.__lt__ Timer_lt_key _ Hne Hord)
    as (r' & h1 & Hpop & Hr' & Hord1 & Hperm1 & _).
  assert (r' = r) as -> by congruence.
  eexists. rewrite (timer_work_late w r h1) by done. by repeat split.
Qed.

Lemma X11_timer_work_overdue_drops_timer_witness :
  ∃ w', timer_work overdue_world = (Raise ValueError, w')
        ∧ _timers (self overdue_world)
          ≡ₚ mkTimer 50000 8%nat 50000 :: _timers (self w')
        ∧ timers_ordered w'
        ∧ _stacks (self w') = _stacks (self overdue_world)
        ∧ trace w'
          = trace overdue_world
            ++ [EvAcquire ContinueLock; EvRelease ContinueLock;
                EvAcquire TimersCv; EvHeappop (mkTimer 50000 8%nat 50000);
                EvRelease TimersCv].
Proof.
  apply (X11_timer_work_overdue_drops_timer overdue_world (mkTimer 50000 8%nat 50000)).
  - reflexivity.
  - apply heap_orderedb_spec. vm_compute. reflexivity.
  - reflexivity.
  - vm_compute. reflexivity.
Defined.

(** X12.  A pass of [timer_work] that completes handles the earliest timer
    of the queue and no other: afterwards the queue holds the other timers
    unchanged together with that timer, same period and handler, due one
    period after the clock reading that ends the pass; that reading is the
    old due time moved by the steps the wall clock took during the sleep
    and before the reading.  The registry is untouched. *)
Theorem X12_timer_work_rearms_earliest (w : World) (r : Timer) :
  _continue (self w) = true → timers_ordered w →
  _timers (self w) !! 0%nat = Some r →
  clock w + delay_at (delays w) 0 ≤ _next_time r →
  ∃ w' rest,
    timer_work w = (Ok (), w')
    ∧ _timers (self w) ≡ₚ r :: rest
    ∧ _timers (self w')
      ≡ₚ mkTimer (_period r) (_handler r) (clock w' + _period r) :: rest
    ∧ clock w' = _next_time r + delay_at (delays w) 1 + delay_at (delays w) 2
    ∧ timers_ordered w'
    ∧ _stacks (self w') = _stacks (self w).
Proof.
  intros Hc Hord Hr Hdue.
  assert (Hne : _timers (self w) ≠ []) by (intros E; by rewrite E in Hr).
  destruct (heappop_ok _next_time Timer_.__lt__ Timer_lt_key _ Hne Hord)
    as (r' & h1 & Hpop & Hr' & Hord1 & Hperm1 & _).
  assert (r' = r) as -> by congruence.
  destruct (heappush_ok _next_time Timer_.__lt__ Timer_lt_key h1 (rearmed r w) Hord1)
    as (h2 & Hpush & Hord2 & Hperm2).
  eexists _, h1. rewrite (timer_work_fire w r h1 h2) by done.
  split; [done|]. split; [done|]. split; [exact Hperm2|].
  split; [done|]. by split.
Qed.

Lemma X12_timer_work_rearms_earliest_witness :
  ∃ w' rest,
    timer_work three_timer_world = (Ok (), w')
    ∧ _timers (self three_timer_world) ≡ₚ mkTimer 50000 8%nat 50000 :: rest
    ∧ _timers (self w') ≡ₚ mkTimer 50000 8%nat (clock w' + 50000) :: rest
    ∧ clock w'
      = 50000 + delay_at (delays three_timer_world) 1
        + delay_at (delays three_timer_world) 2
    ∧ timers_ordered w'
    ∧ _stacks (self w') = _stacks (self three_timer_world).
Proof.
  apply (X12_timer_work_rearms_earliest three_timer_world (mkTimer 50000 8%nat 50000)).
  - reflexivity.
  - apply heap_orderedb_spec. vm_compute. reflexivity.
  - reflexivity.
  - vm_compute. discriminate.
Defined.

Lemma timer_work_ideal (mavfile : Mavfile) (s : gmap string (list Handler))
    (t : Timer) (now : Z) (tr : list Event) :
  now ≤ _next_time t →
  timer_work (ideal_world mavfile s t now tr)
  = (Ok (),
     ideal_world mavfile s
       (mkTimer (_period t) (_handler t) (_next_time t + _period t))
       (_next_time t)
       (tr ++ pass_events t (_next_time t - now)
                (mkTimer (_period t) (_handler t) (_next_time t + _period t)))).
Proof.
  intros Hdue.
  rewrite (timer_work_fire _ t [] [rearmed t (ideal_world mavfile s t now tr)]);
    [|reflexivity|discriminate|reflexivity|simpl; unfold delay_at; simpl; lia
     |reflexivity].
  unfold ideal_world, rearmed, pass_events, delay_at. simpl.
  by rewrite !Z.add_0_r.
Qed.

Lemma ideal_world_eq (mavfile : Mavfile) (s : gmap string (list Handler))
    (period : Z) (handler : Handler) (d1 d2 c1 c2 : Z) (tr1 tr2 : list Event) :
  d1 = d2 → c1 = c2 → tr1 = tr2 →
  ideal_world mavfile s (mkTimer period handler d1) c1 tr1
  = ideal_world mavfile s (mkTimer period handler d2) c2 tr2.
Proof. by intros -> -> ->. Qed.

(** X13.  On an ideal clock (no time goes by but in the sleeps) the single
    timer of a queue keeps its cadence: for a period [P >= 0], [n] passes of
    [timer_work] all complete, each pops the timer, sleeps exactly [P] and
    pushes it back due one period later; the clock ends [n] periods after
    the start and the timer is due one period after that; no handler is
    submitted along the way. *)
Theorem X13_ideal_clock_cadence (n : nat) :
  ∀ (mavfile : Mavfile) (s : gmap string (list Handler))
    (period : Z) (handler : Handler) (now : Z) (tr : list Event),
    0 ≤ period →
    times n timer_work
      (ideal_world mavfile s (mkTimer period handler (now + period)) now tr)
    = (Ok (),
       ideal_world mavfile s
         (mkTimer period handler (now + (Z.of_nat n + 1) * period))
         (now + Z.of_nat n * period)
         (tr ++ cadence_events n period handler (now + period))).
Proof.
  induction n as [|n IH]; intros mavfile s period handler now tr Hp.
  - simpl. unfold mret, M_ret. f_equal.
    apply ideal_world_eq; [lia|lia|by rewrite app_nil_r].
  - change (times (S n) timer_work) with (timer_work ;; times n timer_work).
    erewrite M_bind_Ok by (apply timer_work_ideal; simpl; lia).
    cbn [_period _handler _next_time].
    replace (now + period - now) with period by lia.
    rewrite IH by done. f_equal.
    apply ideal_world_eq; [lia|lia|]. simpl cadence_events.
    by rewrite <- app_assoc.
Qed.

Lemma X13_ideal_clock_cadence_witness :
  times 3 timer_work
    (ideal_world 0%nat ∅ (mkTimer 100000 7%nat (0 + 100000)) 0 [])
  = (Ok (),
     ideal_world 0%nat ∅
       (mkTimer 100000 7%nat (0 + (Z.of_nat 3 + 1) * 100000))
       (0 + Z.of_nat 3 * 100000)
       ([] ++ cadence_events 3 100000 7%nat (0 + 100000))).
Proof. apply (X13_ideal_clock_cadence 3 0%nat ∅ 100000 7%nat 0 []). lia. Defined.


Lemma pop_all_sorted (n : nat) :
  ∀ w : World,
    length (_timers (self w)) = n → timers_ordered w →
    ∃ l, pop_all n w = (Ok l, add_trace (with_timers w []) (EvHeappop <$> l))
         ∧ l ≡ₚ _timers (self w)
         ∧ by_due_time l.
Proof.
  induction n as [|n IH]; intros w Hlen Hord.
  - destruct w as [[m s t c] k d tr]. simpl in *.
    apply nil_length_inv in Hlen as ->.
    exists []. split; [|split; [done|constructor]].
    unfold add_trace, with_timers. simpl. by rewrite app_nil_r.
  - assert (Hne : _timers (self w) ≠ []) by (intros E; by rewrite E in Hlen).
    destruct (heappop_ok _next_time Timer_.__lt__ Timer_lt_key _ Hne Hord)
      as (r & h & Hpop & _ & Hordh & Hperm & Hmin).
    destruct (IH (add_trace (with_timers w h) [EvHeappop r]))
      as (l & Hrun & Hpl & Hsorted).
    { simpl. apply Permutation_length in Hperm. simpl in Hperm. lia. }
    { exact Hordh. }
    exists (r :: l). simpl pop_all.
    erewrite M_bind_Ok by (by apply heappop_timers_run).
    erewrite M_bind_Ok by exact Hrun.
    split.
    { unfold mret, M_ret, add_trace, with_timers. simpl.
      by rewrite <- app_assoc. }
    simpl in Hpl. split; [by rewrite Hperm, Hpl|].
    constructor; [done|]. apply Forall_forall. intros t Ht.
    apply Hmin. rewrite Hperm. right. by rewrite <- Hpl.
Qed.

(** X15.  Popping an ordered queue until it is empty never fails, and the
    timers come out from the earliest due time to the latest, each entry of
    the queue exactly once, in the order in which the pops are made. *)
Theorem X15_queue_drains_by_due_time (w : World) :
  timers_ordered w →
  ∃ l, pop_all (length (_timers (self w))) w
       = (Ok l, add_trace (with_timers w []) (EvHeappop <$> l))
       ∧ l ≡ₚ _timers (self w)
       ∧ by_due_time l.
Proof. intros Hord. by apply pop_all_sorted. Qed.

Lemma X15_queue_drains_by_due_time_witness :
  ∃ l, pop_all (length (_timers (self three_timer_world))) three_timer_world
         = (Ok l, add_trace (with_timers three_timer_world []) (EvHeappop <$> l))
       ∧ l ≡ₚ _timers (self three_timer_world)
       ∧ by_due_time l.
Proof.
  apply (X15_queue_drains_by_due_time three_timer_world).
  apply heap_orderedb_spec. vm_compute. reflexivity.
Defined.

(** X16.  With the flag true and an empty queue, [timer_work] does not pop:
    it raises nothing, waits on the condition variable, and leaves the
    connection and the clock as they were. *)
Theorem X16_timer_work_waits_on_empty_queue (w : World) :
  _continue (self w) = true → _timers (self w) = [] →
  ∃ w', timer_work w = (Blocked, w')
        ∧ self w' = self w
        ∧ clock w' = clock w
        ∧ submissions (trace w') = submissions (trace w)
        ∧ last (trace w') = Some EvWait.
Proof.
  intros Hc He. eexists. rewrite timer_work_empty by done.
  split; [done|]. split; [done|]. split; [done|]. split.
  - unfold submissions, add_trace. simpl. rewrite omap_app. simpl.
    by rewrite app_nil_r.
  - unfold add_trace. simpl.
    change [EvAcquire ContinueLock; EvRelease ContinueLock;
            EvAcquire TimersCv; EvWait]
      with ([EvAcquire ContinueLock; EvRelease ContinueLock;
             EvAcquire TimersCv] ++ [EvWait]).
    by rewrite app_assoc, last_snoc.
Qed.

Lemma X16_timer_work_waits_on_empty_queue_witness :
  ∃ w', timer_work heartbeat_world = (Blocked, w')
        ∧ self w' = self heartbeat_world
        ∧ clock w' = clock heartbeat_world
        ∧ submissions (trace w') = submissions (trace heartbeat_world)
        ∧ last (trace w') = Some EvWait.
Proof.
  apply (X16_timer_work_waits_on_empty_queue heartbeat_world); reflexivity.
Defined.

(** ** What the timer side and the registry side leave alone *)

Lemma keeps_registry_bind {A B : Type} (m : M A) (k : A → M B) :
  keeps_registry m → (∀ a, keeps_registry (k a)) → keeps_registry (m ≫= k).
Proof.
  intros Hm Hk w. unfold mbind, M_bind. specialize (Hm w).
  destruct (m w) as [[a|e| |] w1]; simpl in *; [|done..].
  destruct (Hk a w1) as (H1 & H2 & H3). destruct Hm as (G1 & G2 & G3).
  by rewrite H1, H2, H3.
Qed.

Lemma keeps_registry_pure {A : Type} (m : M A) :
  (∀ w, self (snd (m w)) = self w) → keeps_registry m.
Proof. intros H w. by rewrite H. Qed.

Lemma keeps_registry_emit (e : Event) : keeps_registry (emit e).
Proof. by intros w. Qed.

Lemma keeps_registry_with {A : Type} (l : Lock) (body : M A) :
  keeps_registry body → keeps_registry (with_ l body).
Proof.
  intros Hb w. unfold with_.
  pose proof (keeps_registry_bind (emit (EvAcquire l)) (λ _, body)
                (keeps_registry_emit _) (λ _, Hb) w) as H.
  by destruct ((emit (EvAcquire l) ;; body) w) as [[a|e| |] w1].
Qed.

Ltac kr_pure :=
  first [ apply keeps_registry_pure; done
        | intros ?; apply keeps_registry_pure; done ].

Lemma keeps_registry_set_timers (h : list Timer) : keeps_registry (set_timers h).
Proof. by intros w. Qed.

Lemma keeps_registry_datetime_now : keeps_registry datetime_now.
Proof.
  apply keeps_registry_pure. intros w. unfold datetime_now.
  by destruct (next_delay w).
Qed.

Lemma keeps_registry_time_sleep (secs : Z) : keeps_registry (time_sleep secs).
Proof.
  apply keeps_registry_pure. intros w. unfold time_sleep.
  destruct (decide (secs < 0)); [done|]. by destruct (next_delay w).
Qed.

Lemma keeps_registry_heappush_timers (t : Timer) :
  keeps_registry (heappush_timers t).
Proof.
  unfold heappush_timers.
  apply keeps_registry_bind; [kr_pure|]. intros c.
  apply keeps_registry_bind; [kr_pure|]. intros h.
  apply keeps_registry_bind; [apply keeps_registry_set_timers|]. intros _.
  apply keeps_registry_emit.
Qed.

Lemma keeps_registry_handle (t : Timer) : keeps_registry (Timer_.handle t).
Proof.
  unfold Timer_.handle, Timer_.wait_time.
  apply keeps_registry_bind.
  - apply keeps_registry_bind; [apply keeps_registry_datetime_now|].
    intros now. apply keeps_registry_time_sleep.
  - intros _. apply keeps_registry_bind; [apply keeps_registry_datetime_now|].
    intros now. kr_pure.
Qed.

Lemma keeps_registry_add_timer (period : Z) (handler : Handler) :
  keeps_registry (add_timer period handler).
Proof.
  unfold add_timer, Timer_.__init__, notify. apply keeps_registry_with.
  apply keeps_registry_bind.
  - apply keeps_registry_bind; [apply keeps_registry_datetime_now|].
    intros now. kr_pure.
  - intros t. apply keeps_registry_bind; [apply keeps_registry_heappush_timers|].
    intros _. kr_pure.
Qed.

Lemma keeps_registry_timer_work : keeps_registry timer_work.
Proof.
  unfold timer_work, get_cont_val. apply keeps_registry_bind.
  - apply keeps_registry_with.
    apply keeps_registry_bind; kr_pure.
  - intros [|]; [|kr_pure].
    apply keeps_registry_bind.
    + apply keeps_registry_with. unfold wait_for, timer_status, heappop_timers.
      apply keeps_registry_bind.
      * apply keeps_registry_bind.
        -- apply keeps_registry_bind; kr_pure.
        -- intros [|]; [kr_pure|].
           apply keeps_registry_bind; kr_pure.
      * intros _. apply keeps_registry_bind; [kr_pure|].
        intros c. apply keeps_registry_bind; [kr_pure|].
        intros [t h]. apply keeps_registry_bind; [apply keeps_registry_set_timers|].
        intros _. apply keeps_registry_bind; [apply keeps_registry_emit|].
        intros _. kr_pure.
    + intros t. apply keeps_registry_bind; [apply keeps_registry_handle|].
      intros t'. apply keeps_registry_with. unfold notify.
      apply keeps_registry_bind; [apply keeps_registry_heappush_timers|].
      intros _. kr_pure.
Qed.

(** X17.  The timer side never touches the handlers: whatever the state of
    the connection and whatever their outcome (return, [ValueError],
    waiting), [add_timer], [Timer.handle] and [timer_work] leave the
    handler registry, the flag [_continue] and the transport as they were. *)
Theorem X17_timers_keep_registry
    (w : World) (period : Z) (handler : Handler) (t : Timer) :
  (_stacks (self (snd (add_timer period handler w))) = _stacks (self w)
   ∧ _continue (self (snd (add_timer period handler w))) = _continue (self w)
   ∧ mav (self (snd (add_timer period handler w))) = mav (self w))
  ∧ self (snd (Timer_.handle t w)) = self w
  ∧ (_stacks (self (snd (timer_work w))) = _stacks (self w)
     ∧ _continue (self (snd (timer_work w))) = _continue (self w)
     ∧ mav (self (snd (timer_work w))) = mav (self w)).
Proof.
  split; [apply keeps_registry_add_timer|].
  split; [|apply keeps_registry_timer_work].
  destruct (decide (_next_time t < clock w + delay_at (delays w) 0)).
  - by rewrite handle_late.
  - rewrite handle_run by lia. done.
Qed.

(** X18.  Whatever its argument and its outcome, [clear_handler] changes
    nothing but the registry: the timer queue, the flag, the transport, the
    clock and the trace are as before; and it never adds a stack. *)
Theorem X18_clear_handler_frame (w : World) (message_name : option string) :
  _timers (self (snd (clear_handler message_name w))) = _timers (self w)
  ∧ _continue (self (snd (clear_handler message_name w))) = _continue (self w)
  ∧ mav (self (snd (clear_handler message_name w))) = mav (self w)
  ∧ clock (snd (clear_handler message_name w)) = clock w
  ∧ trace (snd (clear_handler message_name w)) = trace w
  ∧ ∀ name l, _stacks (self (snd (clear_handler message_name w))) !! name = Some l →
              _stacks (self w) !! name = Some l.
Proof.
  destruct message_name as [name|]; [|by rewrite clear_handler_all].
  destruct (decide (name = EmptyString)) as [->|Hne];
    [by rewrite clear_handler_empty_name|].
  destruct (_stacks (self w) !! name) as [l|] eqn:E.
  - rewrite (clear_handler_named w name l) by done. repeat split.
    simpl. intros name' l' H. apply lookup_delete_Some in H. tauto.
  - by rewrite clear_handler_absent.
Qed.
